(** * golazy: lazily loaded, optionally expiring values

  A shallow embedding of the Go package [golazy] (files [static.go],
  [with_loader.go] and the package file that declares [LazyFunc], [Lazy]
  and the public constructors), with the properties of its specification
  stated and proved over it.

  Modelling conventions.
  - Go's [error] is [option Err]: [None] is [nil].
  - [time.Time] is the reading of the monotonic clock in nanoseconds and
    [time.Duration] a number of nanoseconds, both in [Z];
    [time.Since t] is the current reading minus [t] (two readings of the
    monotonic clock are within an [int64] of each other, so the
    saturation of [time.Duration] does not come into play).
  - A loader is user code: it may read and change the rest of the program
    (counters, the clock, ...).  That rest is an abstract world [W]
    threaded through a small state monad, next to a log of the loader
    calls made so far.  The log is ghost state: no function reads it.
  - [*withLoader[T]] is a pointer receiver; the cell is passed to each
    method and the updated cell is returned.  The mutex [mu] brackets the
    whole body of [Value] and [Clear]; it is left out of the sequential
    semantics and made explicit in the interleaving semantics further
    down, where each goroutine is cut at [Lock], around the loader call
    and at [Unlock].
  - [args] is a slice header, as in Go: the constructors keep the header
    they are given and [Value] hands it to the loader, without a copy; the
    elements are in the world, where the loader and the rest of the
    program can write them. *)

From Stdlib Require Import ZArith List Bool Lia String.
Import ListNotations.
Open Scope Z_scope.

(** [time.Time] and [time.Duration] *)
Definition time_Time := Z.
Definition time_Duration := Z.

(** ** Fixtures used by the concrete runs

    The world of the fixtures is the clock reading itself; every loader
    below takes ten nanoseconds. *)
Module Fixture.

Definition World := Z.
Definition Context := string.
Definition read_clock (w : World) : time_Time * World := (w, w).

Definition Background : Context := "background"%string.

(** In these fixtures nobody writes a backing array, and a slice is taken
    for its elements. *)
Definition elems (_ : World) (sl : list string) : list string := sl.

(** [func(ctx, args...) (string, error) { return "from-loader", nil }] *)
Definition fromLoader (_ : Context) (_ : list string) (w : World)
  : (string * option string) * World :=
  (("from-loader"%string, None), w + 10).

(** [func(ctx, args...) (string, error) { var z string; return z, errors.New("boom") }] *)
Definition boom (_ : Context) (_ : list string) (w : World)
  : (string * option string) * World :=
  ((EmptyString, Some "boom"%string), w + 10).


(** [func(ctx, args...) (string, error) { return args[0], nil }], with an
    error when there is no argument. *)
Definition firstArg (_ : Context) (a : list string) (w : World)
  : (string * option string) * World :=
  match a with
  | x :: _ => ((x, None), w + 10)
  | [] => ((EmptyString, Some "expected args"%string), w + 10)
  end.

End Fixture.

(** ** Fixtures with a slice that can be written

    The world is the clock and the backing array of one slice; a header
    over that array is its length. *)
Module Shared.

Definition World := (Z * list string)%type.
Definition Slice := nat.

Definition elems (w : World) (n : Slice) : list string := firstn n (snd w).

Definition read_clock (w : World) : time_Time * World := (fst w, w).

(** [xs[0] = "changed"], done by whoever holds the slice. *)
Definition overwrite (w : World) : World :=
  (fst w, "changed"%string :: tl (snd w)).

(** [func(ctx, args...) (string, error) { return args[0].(string), nil }],
    with an error when there is no argument. *)
Definition first (_ : Fixture.Context) (n : Slice) (w : World)
  : (string * option string) * World :=
  match elems w n with
  | x :: _ => ((x, None), (fst w + 10, snd w))
  | [] => ((EmptyString, Some "expected args"%string), (fst w + 10, snd w))
  end.

(** [func(ctx, args...) (string, error) {
       v := args[0].(string); args[0] = "changed"; return v, nil }],
    with an error when there is no argument. *)
Definition takeAndOverwrite (_ : Fixture.Context) (n : Slice) (w : World)
  : (string * option string) * World :=
  match elems w n with
  | x :: _ => ((x, None), overwrite (fst w + 10, snd w))
  | [] => ((EmptyString, Some "expected args"%string), (fst w + 10, snd w))
  end.

End Shared.

Section Golazy.

(** The value type [T], the dynamic type of errors, [context.Context],
    the element type of [args ...any], slice headers over such elements,
    and the world. *)
Context {T Err Ctx Arg Slice W : Type}.

(** [context.Background()] *)
Variable context_Background : Ctx.

(** Reading the clock: the reading, and the world after it. *)
Variable read_clock : W -> time_Time * W.

(** The elements a slice has in a world.  A slice header is a pointer
    into a backing array, with a length; the array is part of the world,
    and whoever holds a header over it can write it. *)
Variable elems : W -> Slice -> list Arg.

Definition error := option Err.

(** [type LazyFunc[T any] func(ctx context.Context, args ...any) (T, error)]:
    the loader is given the slice header and, in the world, the array
    behind it. *)
Definition LazyFunc := Ctx -> Slice -> W -> (T * error) * W.

(** *** The state monad *)

Record State := mkState {
  world : W;
  calls : list (Ctx * Slice)
}.

Definition M (A : Type) := State -> A * State.

Definition ret {A} (a : A) : M A := fun s => (a, s).

Definition bind {A B} (m : M A) (k : A -> M B) : M B :=
  fun s => let (a, s1) := m s in k a s1.

Notation "x <- m ;; k" := (bind m (fun x => k))
  (at level 61, m at next level, right associativity).

(** [time.Now()] *)
Definition time_Now : M time_Time :=
  fun s => let (t, w1) := read_clock (world s) in
           (t, mkState w1 (calls s)).

(** [time.Since(t)] *)
Definition time_Since (t : time_Time) : M time_Duration :=
  now <- time_Now ;; ret (now - t).

(** A call [f(ctx, args...)] of a loader; the call is logged. *)
Definition invoke (f : LazyFunc) (ctx : Ctx) (a : Slice) : M (T * error) :=
  fun s => let (r, w1) := f ctx a (world s) in
           (r, mkState w1 (calls s ++ [(ctx, a)])).

(** Whatever the program does between two calls on a cell. *)
Definition elsewhere (f : W -> W) : M unit :=
  fun s => (tt, mkState (f (world s)) (calls s)).

(** *** with_loader.go *)

Record withLoader := mkWithLoader {
  value : T;
  args : Slice;
  loader : LazyFunc;
  loaded : bool;
  withTTL : bool;
  ttl : time_Duration;
  lastLoad : option time_Time
}.

(** The zero value of [T], which a struct literal gives to a field it
    does not name. *)
Variable zero : T.

Definition newWithLoader (ld : LazyFunc) (wTTL : bool) (d : time_Duration)
    (a : Slice) : withLoader :=
  {| value := zero; args := a; loader := ld; loaded := false;
     withTTL := wTTL; ttl := d; lastLoad := None |}.

(** The literal names [value], [args], [loader], [withTTL], [ttl],
    [lastLoad] and [mu]; [loaded] is not among them. *)
Definition newWithLoaderPreloaded (v : T) (ld : LazyFunc) (wTTL : bool)
    (d : time_Duration) (a : Slice) : M withLoader :=
  t <- time_Now ;;
  ret {| value := v; args := a; loader := ld; loaded := false;
         withTTL := wTTL; ttl := d; lastLoad := Some t |}.

(** [l.withTTL && l.lastLoad != nil && time.Since( *l.lastLoad) > l.ttl],
    evaluated left to right: the clock is read only when the first two
    conjuncts hold. *)
Definition needsRefresh (l : withLoader) : M bool :=
  if withTTL l then
    match lastLoad l with
    | Some t0 => d <- time_Since t0 ;; ret (d >? ttl l)
    | None => ret false
    end
  else ret false.

(** [len(ctxs) > 0 ? ctxs[0] : context.Background()] *)
Definition pickContext (ctxs : list Ctx) : Ctx :=
  match ctxs with
  | c :: _ => c
  | [] => context_Background
  end.

Definition isNil (e : error) : bool :=
  match e with None => true | Some _ => false end.

(** The three assignments of the load branch. *)
Definition store (l : withLoader) (r : T * error) (t : time_Time) : withLoader :=
  {| value := fst r; args := args l; loader := loader l;
     loaded := isNil (snd r);
     withTTL := withTTL l; ttl := ttl l; lastLoad := Some t |}.

Definition Value (l : withLoader) (ctxs : list Ctx) : M ((T * error) * withLoader) :=
  refresh <- needsRefresh l ;;
  if negb (loaded l) || refresh then
    r <- invoke (loader l) (pickContext ctxs) (args l) ;;
    t <- time_Now ;;
    ret (r, store l r t)
  else
    ret ((value l, None), l).

Definition Clear (l : withLoader) : withLoader :=
  {| value := value l; args := args l; loader := loader l;
     loaded := false;
     withTTL := withTTL l; ttl := ttl l; lastLoad := None |}.


(** *** static.go *)

Record static := mkStatic { static_value : T }.

(** [func (l *static[T]) Value(ctxs ...context.Context) (T, error)] *)
Definition static_Value (l : static) (_ : list Ctx) : M ((T * error) * static) :=
  ret ((static_value l, None), l).

(** [func (l *static[T]) Clear()]: the body is empty. *)
Definition static_Clear (l : static) : static := l.

(** *** The interface [Lazy[T]] and the public constructors *)

Class Lazy (L : Type) := {
  lazy_Value : L -> list Ctx -> M ((T * error) * L);
  lazy_Clear : L -> L
}.

#[export] Instance Lazy_withLoader : Lazy withLoader :=
  {| lazy_Value := Value; lazy_Clear := Clear |}.

#[export] Instance Lazy_static : Lazy static :=
  {| lazy_Value := static_Value; lazy_Clear := static_Clear |}.

Definition WithLoader (ld : LazyFunc) (a : Slice) : withLoader :=
  newWithLoader ld false 0 a.

Definition WithLoaderTTL (ld : LazyFunc) (d : time_Duration) (a : Slice)
    : withLoader :=
  newWithLoader ld true d a.

Definition Preloaded (v : T) (ld : LazyFunc) (a : Slice) : M withLoader :=
  newWithLoaderPreloaded v ld false 0 a.

Definition PreloadedTTL (v : T) (ld : LazyFunc) (d : time_Duration)
    (a : Slice) : M withLoader :=
  newWithLoaderPreloaded v ld true d a.

Definition Static (v : T) : static := {| static_value := v |}.

(** *** Sequences of calls on one cell

    A client program, as far as a cell can tell: calls of [Value], calls of
    [Clear], and anything else in between ([time.Sleep], other code), which
    changes the world but not the cell. *)
Inductive Op :=
| OpValue (ctxs : list Ctx)
| OpClear
| OpElsewhere (f : W -> W).

(** Runs the calls in order; returns what the [Value] calls returned, in
    order, and the cell at the end. *)
Fixpoint run {L} `{Lazy L} (l : L) (ops : list Op) : M (list (T * error) * L) :=
  match ops with
  | [] => ret ([], l)
  | OpValue ctxs :: k =>
      rl <- lazy_Value l ctxs ;;
      rest <- run (snd rl) k ;;
      ret (fst rl :: fst rest, snd rest)
  | OpClear :: k => run (lazy_Clear l) k
  | OpElsewhere f :: k => _ <- elsewhere f ;; run l k
  end.

Definition isValue (o : Op) : bool :=
  match o with OpValue _ => true | _ => false end.

Definition isClear (o : Op) : bool :=
  match o with OpClear => true | _ => false end.

(** The clock reading that [needsRefresh] compares, when it reads the
    clock at all. *)
Definition now (s : State) : time_Time := fst (read_clock (world s)).

(** The guard [!l.loaded || needsRefresh] of [Value], at state [s]. *)
Definition mustLoad (l : withLoader) (s : State) : bool :=
  negb (loaded l) || fst (needsRefresh l s).

(** [Value] and [Clear] write [value], [loaded] and [lastLoad] only. *)
Definition sameSetup (l l' : withLoader) : Prop :=
  args l' = args l /\ loader l' = loader l /\
  withTTL l' = withTTL l /\ ttl l' = ttl l.

(** The loader calls logged between two states. *)
Definition loadsBetween (s s' : State) (k : list (Ctx * Slice)) : Prop :=
  calls s' = calls s ++ k.

(** *** Interleaving semantics: goroutines calling into one cell

    Each goroutine makes one call on the shared cell.  A call is cut at the
    points where other goroutines can be scheduled in a way that matters:
    at [l.mu.Lock()], around the call of the loader, and at the deferred
    [l.mu.Unlock()].  The loader call is logged when it starts; what the
    loader does to the world is applied when it returns. *)

Inductive Call :=
| CallValue (ctxs : list Ctx)
| CallClear.

Inductive Pc :=
| AtLock (k : Call)                  (* before, or blocked in, [l.mu.Lock()] *)
| Locked (k : Call)                  (* [Lock] has returned *)
| InLoader (ctx : Ctx)               (* inside [l.loader(ctx, l.args...)] *)
| AtUnlock (r : option (T * error))  (* body done, [Unlock] still deferred *)
| Done (r : option (T * error)).     (* returned; [None] for [Clear] *)

Record Config := mkConfig {
  cell : withLoader;
  mu : bool;                          (* is the mutex locked *)
  env : State;
  pcs : list Pc
}.

Fixpoint update {A} (i : nat) (x : A) (l : list A) : list A :=
  match l, i with
  | [], _ => []
  | _ :: t, O => x :: t
  | h :: t, S j => h :: update j x t
  end.

(** The next step of goroutine [i]; [None] when it is blocked on the mutex
    or has returned. *)
Definition stepThread (i : nat) (c : Config) : option Config :=
  match nth_error (pcs c) i with
  | Some (AtLock k) =>
      if mu c then None
      else Some (mkConfig (cell c) true (env c) (update i (Locked k) (pcs c)))
  | Some (Locked (CallValue ctxs)) =>
      let (refresh, s1) := needsRefresh (cell c) (env c) in
      if negb (loaded (cell c)) || refresh then
        let ctx := pickContext ctxs in
        Some (mkConfig (cell c) (mu c)
                (mkState (world s1) (calls s1 ++ [(ctx, args (cell c))]))
                (update i (InLoader ctx) (pcs c)))
      else
        Some (mkConfig (cell c) (mu c) s1
                (update i (AtUnlock (Some (value (cell c), None))) (pcs c)))
  | Some (Locked CallClear) =>
      Some (mkConfig (Clear (cell c)) (mu c) (env c)
              (update i (AtUnlock None) (pcs c)))
  | Some (InLoader ctx) =>
      let (r, w1) := loader (cell c) ctx (args (cell c)) (world (env c)) in
      let (t, s2) := time_Now (mkState w1 (calls (env c))) in
      Some (mkConfig (store (cell c) r t) (mu c) s2
              (update i (AtUnlock (Some r)) (pcs c)))
  | Some (AtUnlock r) =>
      Some (mkConfig (cell c) false (env c) (update i (Done r) (pcs c)))
  | Some (Done _) => None
  | None => None
  end.

(** A scheduler decision: goroutine [i] takes a step, or the rest of the
    program changes the world. *)
Inductive Move :=
| Go (i : nat)
| Else (f : W -> W).

Definition move (m : Move) (c : Config) : option Config :=
  match m with
  | Go i => stepThread i c
  | Else f => Some (mkConfig (cell c) (mu c) (snd (elsewhere f (env c))) (pcs c))
  end.

Fixpoint exec (ms : list Move) (c : Config) : option Config :=
  match ms with
  | [] => Some c
  | m :: k => match move m c with
              | Some c1 => exec k c1
              | None => None
              end
  end.

(** One goroutine per call, all about to take the lock of cell [l]. *)
Definition spawn (l : withLoader) (s : State) (ks : list Call) : Config :=
  mkConfig l false s (map AtLock ks).

Definition inCritical (p : Pc) : bool :=
  match p with
  | Locked _ | InLoader _ | AtUnlock _ => true
  | AtLock _ | Done _ => false
  end.


Definition isDone (p : Pc) : bool :=
  match p with Done _ => true | _ => false end.

Definition isValueCall (k : Call) : bool :=
  match k with CallValue _ => true | CallClear => false end.




(** A goroutine that runs a [Value] call (not [Clear]). *)
Definition valueOnly (p : Pc) : bool :=
  match p with
  | AtLock CallClear | Locked CallClear => false
  | _ => true
  end.

(** What a goroutine is about to return or has returned. *)
Definition resultOf (p : Pc) : option (option (T * error)) :=
  match p with
  | AtUnlock r | Done r => Some r
  | _ => None
  end.

(** The mutex invariant: the goroutines between [Lock] and [Unlock] number
    at most one, and exactly one when the mutex is locked. *)
Definition exclusive (c : Config) : Prop :=
  (forall i j p q,
     nth_error (pcs c) i = Some p -> nth_error (pcs c) j = Some q ->
     inCritical p = true -> inCritical q = true -> i = j) /\
  (mu c = false ->
   forall i p, nth_error (pcs c) i = Some p -> inCritical p = false) /\
  (mu c = true ->
   exists i p, nth_error (pcs c) i = Some p /\ inCritical p = true).



(** *** Who writes the elements of a slice

    A step [f] of the rest of the program, a loader, the clock, a sequence
    of calls: each leaves the elements of slice [a] as they are. *)
Definition keeps (a : Slice) (f : W -> W) : Prop :=
  forall w, elems (f w) a = elems w a.

Definition loaderKeeps (a : Slice) (ld : LazyFunc) : Prop :=
  forall ctx sl w, elems (snd (ld ctx sl w)) a = elems w a.

Definition clockKeeps (a : Slice) : Prop :=
  forall w, elems (snd (read_clock w)) a = elems w a.

Fixpoint opsKeep (a : Slice) (ops : list Op) : Prop :=
  match ops with
  | [] => True
  | OpElsewhere f :: k => keeps a f /\ opsKeep a k
  | _ :: k => opsKeep a k
  end.

(** *** Measures and invariants of the further properties *)


(** A loaded cell has a timestamp. *)
Definition stamped (l : withLoader) : Prop :=
  loaded l = true -> exists t, lastLoad l = Some t.

(** Reading the clock leaves the world as it is. *)
Definition pureClock : Prop := forall w, snd (read_clock w) = w.

Fixpoint total {A} (f : A -> nat) (l : list A) : nat :=
  match l with
  | [] => O
  | x :: t => (f x + total f t)%nat
  end.

(** How far a goroutine has come, and how many steps all of them have
    left at most. *)
Definition rank (p : Pc) : nat :=
  match p with
  | AtLock _ => 0
  | Locked _ => 1
  | InLoader _ => 2
  | AtUnlock _ => 3
  | Done _ => 4
  end%nat.

Definition remaining (c : Config) : nat :=
  total (fun p => (4 - rank p)%nat) (pcs c).

(** A goroutine that runs [Value] and is past its test. *)
Definition tested (p : Pc) : bool :=
  match p with
  | InLoader _ | AtUnlock (Some _) | Done (Some _) => true
  | _ => false
  end.

(** A goroutine that has started a loader call. *)
Definition calledLoader (p : Pc) : bool :=
  match p with
  | InLoader _ | AtUnlock _ | Done _ => true
  | _ => false
  end.

(** The loader returns a non-nil error whatever it is given. *)
Definition fails (ld : LazyFunc) : Prop :=
  forall ctx a w, snd (fst (ld ctx a w)) <> None.

Definition isError (r : option (T * error)) : Prop :=
  exists v e, r = Some (v, Some e).

(** The invariant behind the retries: with a loader that fails the cell
    is never loaded, every goroutine past its test has called the loader,
    and every result is an error. *)
Definition allFail (log0 : list (Ctx * Slice)) (c : Config) : Prop :=
  fails (loader (cell c)) /\
  loaded (cell c) = false /\
  Forall (fun p => valueOnly p = true) (pcs c) /\
  Forall (fun p => forall r, resultOf p = Some r -> isError r) (pcs c) /\
  exists k, calls (env c) = log0 ++ k /\
            List.length k = total (fun p => if calledLoader p then 1 else 0)%nat
                              (pcs c).

(** ** Properties of the sequential semantics *)

Ltac unfold_monad :=
  unfold needsRefresh, time_Since, time_Now, invoke, elsewhere, bind, ret in *.

Lemma needsRefresh_calls (l : withLoader) (s : State) :
  calls (snd (needsRefresh l s)) = calls s.
Proof.
  unfold_monad. destruct (withTTL l); [|reflexivity].
  destruct (lastLoad l); [|reflexivity].
  destruct (read_clock (world s)); reflexivity.
Qed.

Lemma needsRefresh_true (l : withLoader) (s : State) :
  fst (needsRefresh l s) = true <->
  withTTL l = true /\ exists t0, lastLoad l = Some t0 /\ now s - t0 > ttl l.
Proof.
  unfold now. unfold_monad. destruct (withTTL l).
  - destruct (lastLoad l) as [t0|].
    + destruct (read_clock (world s)) as [t w1]; simpl. split.
      * intros H. split; [reflexivity|]. exists t0. split; [reflexivity|].
        apply Z.gtb_lt in H. lia.
      * intros [_ [t1 [E H]]]. inversion E; subst. apply Z.gtb_lt. lia.
    + simpl. split; [discriminate|]. intros [_ [t1 [E _]]]. discriminate.
  - simpl. split; [discriminate|]. intros [E _]. discriminate.
Qed.

Lemma needsRefresh_noTTL (l : withLoader) (s : State) :
  withTTL l = false -> needsRefresh l s = (false, s).
Proof. intros H. unfold needsRefresh. rewrite H. reflexivity. Qed.

Lemma needsRefresh_noStamp (l : withLoader) (s : State) :
  lastLoad l = None -> needsRefresh l s = (false, s).
Proof.
  intros H. unfold needsRefresh. rewrite H. destruct (withTTL l); reflexivity.
Qed.

(** The two branches of [Value]. *)
Lemma Value_hit (l : withLoader) (ctxs : list Ctx) (s : State) :
  mustLoad l s = false ->
  Value l ctxs s = ((value l, None, l), snd (needsRefresh l s)).
Proof.
  unfold mustLoad, Value, bind. destruct (needsRefresh l s) as [b s1]; simpl.
  intros ->. reflexivity.
Qed.

Lemma Value_load (l : withLoader) (ctxs : list Ctx) (s : State) :
  mustLoad l s = true ->
  let s1 := snd (needsRefresh l s) in
  let out := loader l (pickContext ctxs) (args l) (world s1) in
  let tick := read_clock (snd out) in
  Value l ctxs s =
    ((fst out, store l (fst out) (fst tick)),
     mkState (snd tick) (calls s ++ [(pickContext ctxs, args l)])).
Proof.
  unfold mustLoad, Value, bind. rewrite <- (needsRefresh_calls l s).
  destruct (needsRefresh l s) as [b s1]; simpl.
  intros ->. unfold invoke, time_Now, ret.
  destruct (loader l (pickContext ctxs) (args l) (world s1)) as [r w1]; simpl.
  destruct (read_clock w1) as [t w2]; reflexivity.
Qed.

Lemma mustLoad_unloaded (l : withLoader) (s : State) :
  loaded l = false -> mustLoad l s = true.
Proof. intros H. unfold mustLoad. rewrite H. reflexivity. Qed.

(** What the guard of [Value] amounts to. *)
Lemma mustLoad_true (l : withLoader) (s : State) :
  mustLoad l s = true <->
  loaded l = false \/
  (withTTL l = true /\ exists t0, lastLoad l = Some t0 /\ now s - t0 > ttl l).
Proof.
  unfold mustLoad. rewrite orb_true_iff, negb_true_iff, needsRefresh_true.
  reflexivity.
Qed.

(** A call of [Value] logs nothing or exactly one loader call. *)
Lemma Value_calls (l : withLoader) (ctxs : list Ctx) (s : State) :
  calls (snd (Value l ctxs s)) =
  calls s ++ (if mustLoad l s then [(pickContext ctxs, args l)] else []).
Proof.
  destruct (mustLoad l s) eqn:E.
  - rewrite (Value_load l ctxs s E). reflexivity.
  - rewrite (Value_hit l ctxs s E). simpl.
    rewrite needsRefresh_calls, app_nil_r. reflexivity.
Qed.

Lemma app_one_neq {A} (l : list A) (x : A) : l ++ [x] <> l.
Proof.
  intros H. apply (f_equal (@List.length A)) in H.
  rewrite List.length_app in H. simpl in H. lia.
Qed.

Lemma Value_sameSetup (l : withLoader) (ctxs : list Ctx) (s : State) :
  sameSetup l (snd (fst (Value l ctxs s))).
Proof.
  destruct (mustLoad l s) eqn:E.
  - rewrite (Value_load l ctxs s E). repeat split.
  - rewrite (Value_hit l ctxs s E). repeat split.
Qed.

Lemma Clear_sameSetup (l : withLoader) : sameSetup l (Clear l).
Proof. repeat split. Qed.

Lemma sameSetup_trans (l1 l2 l3 : withLoader) :
  sameSetup l1 l2 -> sameSetup l2 l3 -> sameSetup l1 l3.
Proof.
  unfold sameSetup. intros (A1 & B1 & C1 & D1) (A2 & B2 & C2 & D2).
  repeat split; congruence.
Qed.

(** Along any sequence of calls the setup stays, and every loader call
    that is logged carries the cell's [args]. *)
Lemma run_withLoader (ops : list Op) : forall (l : withLoader) (s : State),
  sameSetup l (snd (fst (run l ops s))) /\
  exists k, loadsBetween s (snd (run l ops s)) k /\
            Forall (fun c => snd c = args l) k.
Proof.
  unfold loadsBetween.
  induction ops as [|o ops IH]; intros l s.
  - simpl. split; [repeat split|]. exists []. rewrite app_nil_r. auto.
  - destruct o as [ctxs| |f]; simpl.
    + unfold bind, ret.
      pose proof (Value_calls l ctxs s) as HC.
      pose proof (Value_sameSetup l ctxs s) as HS.
      destruct (Value l ctxs s) as [[r l1] s1]; simpl in *.
      destruct (IH l1 s1) as [HS2 [k [Hk HF]]].
      destruct (run l1 ops s1) as [[rs l2] s2]; simpl in *.
      split; [eapply sameSetup_trans; eauto|].
      exists ((if mustLoad l s then [(pickContext ctxs, args l)] else []) ++ k).
      split; [rewrite Hk, HC, app_assoc; reflexivity|].
      apply Forall_app. split.
      * destruct (mustLoad l s); auto.
      * destruct HS as [Ha _]. rewrite Ha in HF. exact HF.
    + destruct (IH (Clear l) s) as [HS2 [k [Hk HF]]].
      split; [eapply sameSetup_trans; [apply Clear_sameSetup|exact HS2]|].
      exists k. split; assumption.
    + unfold bind, elsewhere.
      destruct (IH l (mkState (f (world s)) (calls s))) as [HS2 [k [Hk HF]]].
      split; [exact HS2|]. exists k. split; assumption.
Qed.

(** On a loaded cell without TTL, calls other than [Clear] change nothing
    and return the cached value. *)
Lemma run_cached (ops : list Op) : forall (l : withLoader) (s : State),
  withTTL l = false -> loaded l = true ->
  forallb (fun o => negb (isClear o)) ops = true ->
  fst (run l ops s) =
    (repeat (value l, None) (List.length (filter isValue ops)), l) /\
  calls (snd (run l ops s)) = calls s.
Proof.
  induction ops as [|o ops IH]; intros l s HT HL HC.
  - simpl. auto.
  - simpl in HC. apply andb_true_iff in HC. destruct HC as [Ho HC].
    destruct o as [ctxs| |f]; simpl in *; try discriminate.
    + unfold bind, ret.
      assert (E : mustLoad l s = false).
      { unfold mustLoad. rewrite HL, (needsRefresh_noTTL l s HT). reflexivity. }
      rewrite (Value_hit l ctxs s E), (needsRefresh_noTTL l s HT). simpl.
      destruct (IH l s HT HL HC) as [H1 H2].
      destruct (run l ops s) as [[rs l2] s2]; simpl in *.
      inversion H1; subst. auto.
    + unfold bind, elsewhere.
      apply (IH l (mkState (f (world s)) (calls s)) HT HL HC).
Qed.

Lemma run_static (ops : list Op) : forall (l : static) (s : State),
  fst (run l ops s) =
    (repeat (static_value l, None) (List.length (filter isValue ops)), l) /\
  calls (snd (run l ops s)) = calls s.
Proof.
  induction ops as [|o ops IH]; intros l s.
  - simpl. auto.
  - destruct o as [ctxs| |f]; simpl.
    + unfold bind, ret, static_Value. simpl.
      destruct (IH l s) as [H1 H2].
      destruct (run l ops s) as [[rs l2] s2]; simpl in *.
      inversion H1; subst. auto.
    + apply IH.
    + unfold bind, elsewhere. apply (IH l (mkState (f (world s)) (calls s))).
Qed.

Lemma Forall_repeat {A} (P : A -> Prop) (x : A) (n : nat) :
  P x -> Forall P (repeat x n).
Proof. intros H. induction n; simpl; auto. Qed.

(** ** The claims about one goroutine *)

(** C1 (fails on the code).  The cell built by [newWithLoaderPreloaded]
    holds the preload value and the time of construction, but its [loaded]
    flag is false: the first [Value] call invokes the loader, once, with
    the resolved context and the construction-time arguments, and returns
    what the loader returns instead of the preload value. *)
Theorem C1_preloaded_cell_is_unloaded (v : T) (ld : LazyFunc) (wTTL : bool)
    (d : time_Duration) (a : Slice) (ctxs : list Ctx) (s : State) :
  let made := newWithLoaderPreloaded v ld wTTL d a s in
  let l := fst made in
  let res := Value l ctxs (snd made) in
  value l = v /\ lastLoad l = Some (now s) /\ loaded l = false /\
  loadsBetween (snd made) (snd res) [(pickContext ctxs, a)] /\
  fst (fst res) =
    fst (ld (pickContext ctxs) a (world (snd (needsRefresh l (snd made))))).
Proof.
  unfold newWithLoaderPreloaded, now, time_Now, bind, ret. cbv zeta.
  destruct (read_clock (world s)) as [t w1]; simpl fst; simpl snd.
  set (l := {| value := v; args := a; loader := ld; loaded := false;
               withTTL := wTTL; ttl := d; lastLoad := Some t |}).
  set (s1 := {| world := w1; calls := calls s |}).
  assert (E : mustLoad l s1 = true) by (apply mustLoad_unloaded; reflexivity).
  rewrite (Value_load l ctxs s1 E). unfold loadsBetween. simpl. auto.
Qed.

(** C2.  When [Value] invokes the loader and the loader returns [(v, e)]
    with [e] non-nil, [Value] returns exactly [(v, e)]; afterwards the cell
    has [value = v], [loaded = false] and [lastLoad] the clock reading taken
    after the loader returned; and the next [Value] call, whatever its
    contexts and whenever it comes, invokes the loader again. *)
Theorem C2_failed_load (l : withLoader) (ctxs : list Ctx) (s : State)
    (v : T) (e : Err) :
  mustLoad l s = true ->
  let out := loader l (pickContext ctxs) (args l)
               (world (snd (needsRefresh l s))) in
  fst out = (v, Some e) ->
  let res := Value l ctxs s in
  let l' := snd (fst res) in
  loadsBetween s (snd res) [(pickContext ctxs, args l)] /\
  fst (fst res) = (v, Some e) /\
  value l' = v /\ loaded l' = false /\
  lastLoad l' = Some (fst (read_clock (snd out))) /\
  forall ctxs' s',
    loadsBetween s' (snd (Value l' ctxs' s')) [(pickContext ctxs', args l')].
Proof.
  intros E out Hout res l'. subst res l'.
  rewrite (Value_load l ctxs s E). fold out. rewrite Hout.
  unfold loadsBetween. simpl. repeat split.
  intros ctxs' s'. rewrite Value_calls, mustLoad_unloaded; reflexivity.
Qed.

(** C3.  In a [Value] call the loader is invoked if and only if
    [loaded = false], or [withTTL = true] and [lastLoad] is present and the
    time elapsed since it is strictly greater than [ttl].  When that holds
    the call returns what the loader returns on the resolved context, the
    cell's [args] and the world of that moment, and leaves the world the
    loader and the clock reading after it produce; when it does not, no
    loader call is made, the stored value is returned with a nil error,
    and the cell is unchanged; in particular a call at exactly [ttl]
    elapsed on a loaded cell is a cache hit. *)
Theorem C3_loader_invoked_iff (l : withLoader) (ctxs : list Ctx) (s : State) :
  let res := Value l ctxs s in
  let s' := snd res in
  let s1 := snd (needsRefresh l s) in
  let out := loader l (pickContext ctxs) (args l) (world s1) in
  let due := loaded l = false \/
             (withTTL l = true /\
              exists t0, lastLoad l = Some t0 /\ now s - t0 > ttl l) in
  (loadsBetween s s' [(pickContext ctxs, args l)] <-> due) /\
  (loadsBetween s s' [(pickContext ctxs, args l)] \/ loadsBetween s s' []) /\
  (due ->
   fst (fst res) = fst out /\ world s' = snd (read_clock (snd out))) /\
  (~ due ->
   loadsBetween s s' [] /\ fst res = ((value l, None), l) /\
   world s' = world s1) /\
  (forall t0, loaded l = true -> lastLoad l = Some t0 ->
              now s - t0 = ttl l ->
              loadsBetween s s' [] /\ fst res = ((value l, None), l)).
Proof.
  cbv zeta. unfold loadsBetween. rewrite <- mustLoad_true.
  destruct (mustLoad l s) eqn:E.
  - rewrite (Value_load l ctxs s E). cbv zeta. simpl.
    split; [tauto|]. split; [auto|]. split; [auto|].
    split; [intros N; congruence|].
    intros t0 HL Ht Hd. apply mustLoad_true in E.
    destruct E as [E|[_ [t1 [E1 E2]]]]; [congruence|].
    rewrite Ht in E1. inversion E1; subst. lia.
  - rewrite (Value_hit l ctxs s E). simpl.
    rewrite needsRefresh_calls, app_nil_r.
    split; [|split; [auto|split; [discriminate|split; [auto|auto]]]].
    split; [|discriminate].
    intros H. symmetry in H. exfalso. exact (app_one_neq _ _ H).
Qed.

(** C4.  On a cell without TTL, once a [Value] call has returned a nil
    error the cell is loaded, and in any later sequence of calls without a
    [Clear] - any number of [Value] calls, with anything happening in
    between - the loader is not invoked, every [Value] call returns the
    pair the first one returned, and the cell does not change. *)
Theorem C4_no_ttl_cached_until_clear (l0 : withLoader) (ctxs0 : list Ctx)
    (s0 : State) (ops : list Op) :
  withTTL l0 = false ->
  snd (fst (fst (Value l0 ctxs0 s0))) = None ->
  forallb (fun o => negb (isClear o)) ops = true ->
  let first := Value l0 ctxs0 s0 in
  let l1 := snd (fst first) in
  let rest := run l1 ops (snd first) in
  loaded l1 = true /\
  loadsBetween (snd first) (snd rest) [] /\
  fst (fst rest) =
    repeat (fst (fst first)) (List.length (filter isValue ops)) /\
  snd (fst rest) = l1.
Proof.
  intros HT Hok HC first l1 rest. subst rest l1 first.
  assert (H : loaded (snd (fst (Value l0 ctxs0 s0))) = true /\
              withTTL (snd (fst (Value l0 ctxs0 s0))) = false /\
              fst (fst (Value l0 ctxs0 s0)) =
                (value (snd (fst (Value l0 ctxs0 s0))), None)).
  { destruct (mustLoad l0 s0) eqn:E.
    - rewrite (Value_load l0 ctxs0 s0 E) in *. simpl in *.
      destruct (fst (loader l0 (pickContext ctxs0) (args l0)
                       (world (snd (needsRefresh l0 s0))))) as [v e].
      simpl in *. subst e. auto.
    - rewrite (Value_hit l0 ctxs0 s0 E) in *. simpl in *.
      unfold mustLoad in E. apply orb_false_iff in E. destruct E as [E _].
      apply negb_false_iff in E. auto. }
  destruct H as (HL & HT1 & Hr).
  destruct (run_cached ops _ (snd (Value l0 ctxs0 s0)) HT1 HL HC) as [H1 H2].
  unfold loadsBetween. rewrite H1, H2, app_nil_r, Hr. simpl. auto.
Qed.

(** C5.  [Clear] sets [loaded = false] and [lastLoad = nil] whatever the
    cell was, and touches nothing else; a second [Clear] changes nothing;
    and the next [Value] call after a [Clear] invokes the loader exactly
    once: it applies the loader to the resolved context, the cell's [args]
    and the world as it is, returns what the loader returns, stores it,
    and stamps the cell with the clock reading taken afterwards. *)
Theorem C5_Clear (l : withLoader) (ctxs : list Ctx) (s : State) :
  let out := loader l (pickContext ctxs) (args l) (world s) in
  let tick := read_clock (snd out) in
  loaded (Clear l) = false /\ lastLoad (Clear l) = None /\
  value (Clear l) = value l /\ sameSetup l (Clear l) /\
  Clear (Clear l) = Clear l /\
  loadsBetween s (snd (Value (Clear l) ctxs s)) [(pickContext ctxs, args l)] /\
  Value (Clear l) ctxs s =
    ((fst out, store l (fst out) (fst tick)),
     mkState (snd tick) (calls s ++ [(pickContext ctxs, args l)])).
Proof.
  cbv zeta.
  assert (E : Value (Clear l) ctxs s =
    ((fst (loader l (pickContext ctxs) (args l) (world s)),
      store l (fst (loader l (pickContext ctxs) (args l) (world s)))
        (fst (read_clock
                (snd (loader l (pickContext ctxs) (args l) (world s)))))),
     mkState
       (snd (read_clock
               (snd (loader l (pickContext ctxs) (args l) (world s)))))
       (calls s ++ [(pickContext ctxs, args l)]))).
  { rewrite (Value_load (Clear l) ctxs s
               (mustLoad_unloaded (Clear l) s eq_refl)).
    cbv zeta. rewrite (needsRefresh_noStamp (Clear l) s eq_refl).
    reflexivity. }
  repeat split; try exact E.
  unfold loadsBetween. rewrite E. reflexivity.
Qed.

Lemma needsRefresh_keeps (a : Slice) (l : withLoader) (s : State) :
  clockKeeps a ->
  elems (world (snd (needsRefresh l s))) a = elems (world s) a.
Proof.
  intros HC. unfold_monad. destruct (withTTL l); [|reflexivity].
  destruct (lastLoad l); [|reflexivity].
  specialize (HC (world s)). destruct (read_clock (world s)) as [rd w1].
  exact HC.
Qed.

Lemma Value_keeps (a : Slice) (l : withLoader) (ctxs : list Ctx) (s : State) :
  loaderKeeps a (loader l) -> clockKeeps a ->
  elems (world (snd (Value l ctxs s))) a = elems (world s) a.
Proof.
  intros HL HC. destruct (mustLoad l s) eqn:E.
  - rewrite (Value_load l ctxs s E). cbv zeta. simpl.
    rewrite HC, HL. apply needsRefresh_keeps. exact HC.
  - rewrite (Value_hit l ctxs s E). simpl.
    apply needsRefresh_keeps. exact HC.
Qed.

(** If nothing writes the elements of [a] during a sequence of calls,
    they are at the end what they were at the start. *)
Lemma run_keeps (a : Slice) (ops : list Op) :
  forall (l : withLoader) (s : State),
  loaderKeeps a (loader l) -> clockKeeps a -> opsKeep a ops ->
  elems (world (snd (run l ops s))) a = elems (world s) a.
Proof.
  induction ops as [|o ops IH]; intros l s HL HC HO; [reflexivity|].
  destruct o as [ctxs| |f]; simpl in *.
  - unfold bind, ret.
    pose proof (Value_keeps a l ctxs s HL HC) as HV.
    destruct (Value_sameSetup l ctxs s) as (_ & Hld & _).
    destruct (Value l ctxs s) as [[r l1] s1]; simpl in *.
    rewrite <- Hld in HL. specialize (IH l1 s1 HL HC HO).
    destruct (run l1 ops s1) as [[rs l2] s2]; simpl in *. congruence.
  - apply (IH (Clear l) s); assumption.
  - unfold bind, elsewhere. destruct HO as [Hf HO].
    rewrite (IH l (mkState (f (world s)) (calls s)) HL HC HO). simpl.
    apply Hf.
Qed.

(** C6 (as amended).  When a [Value] call invokes the loader: with no
    context argument the loader receives [context.Background()]; with one
    or more it receives the first, and the others change nothing (the
    call behaves as if only the first had been passed); the loader's
    return is what [Value] returns.  In every invocation, over any
    sequence of calls on a cell built by either constructor, the loader
    receives the slice given at construction, the same header.  The
    elements it finds in that slice are the ones of the moment: they are
    the construction-time elements if neither the loader, nor the clock,
    nor the rest of the program has written them in the meantime. *)
Theorem C6_context_and_args :
  (forall l s,
     mustLoad l s = true ->
     loadsBetween s (snd (Value l [] s)) [(context_Background, args l)] /\
     fst (fst (Value l [] s)) =
       fst (loader l context_Background (args l)
              (world (snd (needsRefresh l s))))) /\
  (forall l c rest s,
     mustLoad l s = true ->
     loadsBetween s (snd (Value l (c :: rest) s)) [(c, args l)] /\
     fst (fst (Value l (c :: rest) s)) =
       fst (loader l c (args l) (world (snd (needsRefresh l s)))) /\
     Value l (c :: rest) s = Value l [c] s) /\
  (forall ld wTTL d a ops s,
     exists k, loadsBetween s (snd (run (newWithLoader ld wTTL d a) ops s)) k /\
               Forall (fun call => snd call = a) k) /\
  (forall v ld wTTL d a ops s0,
     let made := newWithLoaderPreloaded v ld wTTL d a s0 in
     exists k, loadsBetween (snd made) (snd (run (fst made) ops (snd made))) k /\
               Forall (fun call => snd call = a) k) /\
  (forall l ops s,
     let a := args l in
     let l' := snd (fst (run l ops s)) in
     let s' := snd (run l ops s) in
     loaderKeeps a (loader l) -> clockKeeps a -> opsKeep a ops ->
     args l' = a /\ loader l' = loader l /\
     elems (world (snd (needsRefresh l' s'))) a = elems (world s) a).
Proof.
  split; [|split; [|split; [|split]]].
  - intros l s E. rewrite (Value_load l [] s E). unfold loadsBetween. auto.
  - intros l c rest s E.
    rewrite (Value_load l (c :: rest) s E), (Value_load l [c] s E).
    unfold loadsBetween. auto.
  - intros ld wTTL d a ops s.
    destruct (run_withLoader ops (newWithLoader ld wTTL d a) s) as [_ H].
    exact H.
  - intros v ld wTTL d a ops s0 made.
    destruct (run_withLoader ops (fst made) (snd made)) as [_ [k [H1 H2]]].
    exists k. split; [exact H1|].
    subst made. unfold newWithLoaderPreloaded, time_Now, bind, ret in H2.
    destruct (read_clock (world s0)); exact H2.
  - intros l ops s a l' s' HL HC HO.
    destruct (run_withLoader ops l s) as [(Ha & Hld & _) _].
    fold l' in Ha, Hld. split; [exact Ha|]. split; [exact Hld|].
    rewrite (needsRefresh_keeps a l' s' HC). subst s'.
    apply run_keeps; assumption.
Qed.

(** C7.  On the static variant built from [v], whatever the sequence of
    [Value] and [Clear] calls: every [Value] call returns [(v, nil)], no
    loader is ever invoked, and [Clear] leaves the cell as it is. *)
Theorem C7_static (v : T) (ops : list Op) (s : State) :
  let out := run (Static v) ops s in
  fst (fst out) = repeat (v, None) (List.length (filter isValue ops)) /\
  Forall (fun r => r = (v, None)) (fst (fst out)) /\
  loadsBetween s (snd out) [] /\
  snd (fst out) = Static v /\
  static_Clear (Static v) = Static v.
Proof.
  cbv zeta. destruct (run_static ops (Static v) s) as [H1 H2].
  rewrite H1. unfold loadsBetween. rewrite H2, app_nil_r. simpl.
  repeat split. apply Forall_repeat. reflexivity.
Qed.

(** C9.  On a loaded cell for which the refresh condition does not hold
    (TTL disabled, or no timestamp, or elapsed time not greater than
    [ttl]), a [Value] call returns the stored value with a nil error,
    leaves every field of the cell as it was, and makes no loader call. *)
Theorem C9_hit_changes_nothing (l : withLoader) (ctxs : list Ctx) (s : State) :
  loaded l = true ->
  (withTTL l = false \/ lastLoad l = None \/
   exists t0, lastLoad l = Some t0 /\ now s - t0 <= ttl l) ->
  fst (Value l ctxs s) = ((value l, None), l) /\
  loadsBetween s (snd (Value l ctxs s)) [].
Proof.
  intros HL Hc.
  assert (E : mustLoad l s = false).
  { destruct (mustLoad l s) eqn:E; [|reflexivity].
    apply mustLoad_true in E.
    destruct E as [E|[HT [t1 [E1 E2]]]]; [congruence|].
    destruct Hc as [Hc|[Hc|[t0 [Hc Hd]]]]; [congruence|congruence|].
    assert (t0 = t1) by congruence. subst t1. lia. }
  unfold loadsBetween. rewrite Value_calls, E, (Value_hit l ctxs s E).
  auto.
Qed.

(** C10.  On every cell with TTL enabled and [ttl = 0], a zero duration
    does not mean that TTL is disabled: once the cell has a timestamp,
    every [Value] call made a strictly positive time after it invokes the
    loader again and returns what the loader returns, whether or not the
    cell is loaded.  The cells built by [WithLoaderTTL] and by
    [PreloadedTTL] with [ttl = 0] are such cells, and stay so through any
    sequence of calls. *)
Theorem C10_zero_ttl_is_enabled :
  (forall (l : withLoader) (ctxs : list Ctx) (s : State) (t0 : time_Time),
     withTTL l = true -> ttl l = 0 ->
     lastLoad l = Some t0 -> now s - t0 > 0 ->
     mustLoad l s = true /\
     loadsBetween s (snd (Value l ctxs s)) [(pickContext ctxs, args l)] /\
     fst (fst (Value l ctxs s)) =
       fst (loader l (pickContext ctxs) (args l)
              (world (snd (needsRefresh l s))))) /\
  (forall (ld : LazyFunc) (a : Slice) (ops : list Op) (s0 : State),
     let l := snd (fst (run (WithLoaderTTL ld 0 a) ops s0)) in
     withTTL l = true /\ ttl l = 0 /\ args l = a /\ loader l = ld) /\
  (forall (v : T) (ld : LazyFunc) (a : Slice) (ops : list Op) (s0 : State),
     let made := PreloadedTTL v ld 0 a s0 in
     let l := snd (fst (run (fst made) ops (snd made))) in
     withTTL l = true /\ ttl l = 0 /\ args l = a /\ loader l = ld /\
     exists t0, lastLoad (fst made) = Some t0).
Proof.
  split; [|split].
  - intros l ctxs s t0 HT Hz Ht Hd.
    assert (E : mustLoad l s = true).
    { apply mustLoad_true. right. split; [exact HT|].
      exists t0. split; [exact Ht|]. rewrite Hz. exact Hd. }
    split; [exact E|]. rewrite (Value_load l ctxs s E).
    unfold loadsBetween. auto.
  - intros ld a ops s0 l.
    destruct (run_withLoader ops (WithLoaderTTL ld 0 a) s0)
      as [(Ha & Hld & HT & Hz) _].
    fold l in Ha, Hld, HT, Hz. auto.
  - intros v ld a ops s0 made l.
    destruct (run_withLoader ops (fst made) (snd made))
      as [(Ha & Hld & HT & Hz) _].
    fold l in Ha, Hld, HT, Hz.
    assert (Hm : args (fst made) = a /\ loader (fst made) = ld /\
                 withTTL (fst made) = true /\ ttl (fst made) = 0 /\
                 exists t0, lastLoad (fst made) = Some t0).
    { subst made. unfold PreloadedTTL, newWithLoaderPreloaded, time_Now,
        bind, ret.
      destruct (read_clock (world s0)) as [rd w1]; simpl. eauto 6. }
    destruct Hm as (M1 & M2 & M3 & M4 & M5).
    split; [congruence|]. split; [congruence|]. split; [congruence|].
    split; [congruence|exact M5].
Qed.

(** ** Further properties of one cell *)

Lemma mustLoad_false (l : withLoader) (s : State) :
  mustLoad l s = false -> loaded l = true /\ fst (needsRefresh l s) = false.
Proof.
  unfold mustLoad. intros H. apply orb_false_iff in H. destruct H as [H1 H2].
  apply negb_false_iff in H1. auto.
Qed.

(** X1.  Whatever a [Value] call did, when it returns the cell stores the
    value it returned and is loaded exactly when the returned error is
    nil; the arguments, the loader and the TTL setting are as before. *)
Theorem Value_result_is_stored (l : withLoader) (ctxs : list Ctx) (s : State) :
  let res := Value l ctxs s in
  let l' := snd (fst res) in
  value l' = fst (fst (fst res)) /\
  loaded l' = isNil (snd (fst (fst res))) /\
  sameSetup l l'.
Proof.
  cbv zeta. destruct (mustLoad l s) eqn:E.
  - rewrite (Value_load l ctxs s E). simpl. repeat split.
  - rewrite (Value_hit l ctxs s E). simpl.
    destruct (mustLoad_false l s E) as [HL _]. repeat split. exact HL.
Qed.

(** X2.  A non-nil error returned by [Value] is the error the loader
    returned in that very call: errors are neither cached nor made up, and
    the cell is left unloaded. *)
Theorem Value_error_is_loader_error (l : withLoader) (ctxs : list Ctx)
    (s : State) (e : Err) :
  snd (fst (fst (Value l ctxs s))) = Some e ->
  loadsBetween s (snd (Value l ctxs s)) [(pickContext ctxs, args l)] /\
  snd (fst (loader l (pickContext ctxs) (args l)
              (world (snd (needsRefresh l s))))) = Some e /\
  loaded (snd (fst (Value l ctxs s))) = false.
Proof.
  destruct (mustLoad l s) eqn:E.
  - rewrite (Value_load l ctxs s E). unfold loadsBetween. simpl.
    intros H. rewrite H. auto.
  - rewrite (Value_hit l ctxs s E). simpl. discriminate.
Qed.

(** X3.  After a [Value] call that invoked the loader and got [(v, nil)],
    the cell is loaded with [v] and stamped with the clock reading taken
    after the loader returned; a later [Value] call, if TTL is disabled or
    at most [ttl] has elapsed since that reading, returns [(v, nil)]
    without invoking the loader and leaves the cell as it is. *)
Theorem load_then_hit (l : withLoader) (ctxs : list Ctx) (s : State) (v : T)
    (ctxs' : list Ctx) (s' : State) :
  mustLoad l s = true ->
  let out := loader l (pickContext ctxs) (args l)
               (world (snd (needsRefresh l s))) in
  let t := fst (read_clock (snd out)) in
  fst out = (v, None) ->
  withTTL l = false \/ now s' - t <= ttl l ->
  let res := Value l ctxs s in
  let l' := snd (fst res) in
  fst (fst res) = (v, None) /\
  loaded l' = true /\ value l' = v /\ lastLoad l' = Some t /\
  fst (Value l' ctxs' s') = ((v, None), l') /\
  loadsBetween s' (snd (Value l' ctxs' s')) [].
Proof.
  intros E out t Hout Hfresh res l'. subst res l'.
  rewrite (Value_load l ctxs s E). fold out. fold t. rewrite Hout. simpl.
  set (l' := store l (v, None) t).
  assert (E' : mustLoad l' s' = false).
  { destruct (mustLoad l' s') eqn:E'; [|reflexivity].
    apply mustLoad_true in E'.
    destruct E' as [E'|[HT [t1 [E1 E2]]]]; [discriminate|].
    simpl in HT, E1, E2. inversion E1; subst t1.
    destruct Hfresh as [Hf|Hf]; [congruence|lia]. }
  unfold loadsBetween. rewrite Value_calls, E', (Value_hit l' ctxs' s' E').
  simpl. rewrite app_nil_r. repeat split.
Qed.

Lemma Value_stamped (l : withLoader) (ctxs : list Ctx) (s : State) :
  stamped l -> stamped (snd (fst (Value l ctxs s))).
Proof.
  intros H. destruct (mustLoad l s) eqn:E.
  - rewrite (Value_load l ctxs s E). simpl. intros _.
    eexists. unfold store. simpl. reflexivity.
  - rewrite (Value_hit l ctxs s E). exact H.
Qed.

Lemma run_stamped (ops : list Op) : forall (l : withLoader) (s : State),
  stamped l -> stamped (snd (fst (run l ops s))).
Proof.
  induction ops as [|o ops IH]; intros l s H; [exact H|].
  destruct o as [ctxs| |f]; simpl.
  - unfold bind, ret.
    pose proof (Value_stamped l ctxs s H) as H1.
    destruct (Value l ctxs s) as [[r l1] s1]; simpl in *.
    specialize (IH l1 s1 H1).
    destruct (run l1 ops s1) as [[rs l2] s2]; exact IH.
  - apply IH. intros HL. discriminate.
  - unfold bind, elsewhere. apply IH. exact H.
Qed.

(** A cache hit on a stamped cell with TTL: the value served is at most
    [ttl] old. *)
Lemma stamped_hit_is_fresh (l : withLoader) (ctxs : list Ctx) (s : State) :
  stamped l -> withTTL l = true -> mustLoad l s = false ->
  exists t0, lastLoad l = Some t0 /\ now s - t0 <= ttl l /\
             fst (fst (Value l ctxs s)) = (value l, None).
Proof.
  intros HS HT E. rewrite (Value_hit l ctxs s E). simpl.
  destruct (mustLoad_false l s E) as [HL HR].
  destruct (HS HL) as [t0 Ht]. exists t0. split; [exact Ht|].
  split; [|reflexivity].
  destruct (Z_le_gt_dec (now s - t0) (ttl l)) as [Hle|Hgt]; [exact Hle|].
  assert (HN : fst (needsRefresh l s) = true).
  { apply needsRefresh_true. split; [exact HT|]. exists t0. auto. }
  congruence.
Qed.

(** X4.  A cell built with TTL enabled, by either constructor, never
    serves a value older than [ttl]: after any sequence of calls, a
    [Value] call that does not invoke the loader is made at most [ttl]
    after the cell's timestamp, and returns the stored value with a nil
    error. *)
Theorem ttl_hit_is_fresh :
  (forall ld d a ops s0 ctxs s,
     let l := snd (fst (run (newWithLoader ld true d a) ops s0)) in
     mustLoad l s = false ->
     exists t0, lastLoad l = Some t0 /\ now s - t0 <= d /\
                fst (fst (Value l ctxs s)) = (value l, None)) /\
  (forall v ld d a ops s0 ctxs s,
     let made := newWithLoaderPreloaded v ld true d a s0 in
     let l := snd (fst (run (fst made) ops (snd made))) in
     mustLoad l s = false ->
     exists t0, lastLoad l = Some t0 /\ now s - t0 <= d /\
                fst (fst (Value l ctxs s)) = (value l, None)).
Proof.
  split.
  - intros ld d a ops s0 ctxs s l E.
    destruct (run_withLoader ops (newWithLoader ld true d a) s0)
      as [(_ & _ & HT & Hd) _].
    fold l in HT, Hd. simpl in HT, Hd. rewrite <- Hd.
    apply stamped_hit_is_fresh; [|exact HT|exact E].
    apply run_stamped. intros HL. discriminate.
  - intros v ld d a ops s0 ctxs s made l E.
    destruct (run_withLoader ops (fst made) (snd made))
      as [(_ & _ & HT & Hd) _].
    fold l in HT, Hd.
    assert (Hm : withTTL (fst made) = true /\ ttl (fst made) = d /\
                 loaded (fst made) = false).
    { subst made. unfold newWithLoaderPreloaded, time_Now, bind, ret.
      destruct (read_clock (world s0)); simpl. auto. }
    destruct Hm as (Hm1 & Hm2 & Hm3). rewrite Hm1 in HT. rewrite Hm2 in Hd.
    rewrite <- Hd.
    apply stamped_hit_is_fresh; [|exact HT|exact E].
    apply run_stamped. intros HL. congruence.
Qed.

Lemma needsRefresh_pure (l : withLoader) (s : State) :
  pureClock -> snd (needsRefresh l s) = s.
Proof.
  intros HP. unfold_monad. destruct (withTTL l); [|reflexivity].
  destruct (lastLoad l); [|reflexivity].
  specialize (HP (world s)). destruct (read_clock (world s)) as [rd w1].
  simpl in *. subst w1. destruct s; reflexivity.
Qed.

(** X5.  On a cell that is not loaded, the stale [value] is never read,
    and the stale timestamp matters only through the clock being read:
    two unloaded cells with the same arguments, loader and TTL setting
    behave alike in a [Value] call - same result, same cell afterwards,
    same loader call - if they have the same timestamp or if reading the
    clock has no effect on the world. *)
Theorem unloaded_ignores_stale_fields (l1 l2 : withLoader) (ctxs : list Ctx)
    (s : State) :
  loaded l1 = false -> loaded l2 = false -> sameSetup l1 l2 ->
  lastLoad l1 = lastLoad l2 \/ pureClock ->
  Value l1 ctxs s = Value l2 ctxs s.
Proof.
  intros H1 H2 (Ha & Hl & Ht & Hd) Hc.
  rewrite (Value_load l1 ctxs s (mustLoad_unloaded l1 s H1)).
  rewrite (Value_load l2 ctxs s (mustLoad_unloaded l2 s H2)).
  cbv zeta.
  assert (E : snd (needsRefresh l1 s) = snd (needsRefresh l2 s)).
  { destruct Hc as [Hc|Hc].
    - unfold needsRefresh. rewrite Ht, Hd, Hc. reflexivity.
    - rewrite !needsRefresh_pure by exact Hc. reflexivity. }
  rewrite E, Ha, Hl. unfold store. rewrite Ha, Hl, Ht, Hd. reflexivity.
Qed.

(** X6.  Over any sequence of calls on a cell, each [Value] call returns
    one result and invokes the loader at most once, and nothing else
    invokes it: the results number the [Value] calls and the loader calls
    number at most as many. *)
Theorem run_counts (ops : list Op) : forall (l : withLoader) (s : State),
  let out := run l ops s in
  List.length (fst (fst out)) = List.length (filter isValue ops) /\
  exists k, loadsBetween s (snd out) k /\
            (List.length k <= List.length (filter isValue ops))%nat.
Proof.
  unfold loadsBetween. cbv zeta.
  induction ops as [|o ops IH]; intros l s.
  - simpl. split; [reflexivity|]. exists []. rewrite app_nil_r. auto.
  - destruct o as [ctxs| |f]; simpl.
    + unfold bind, ret. pose proof (Value_calls l ctxs s) as HC.
      destruct (Value l ctxs s) as [[r l1] s1]; simpl in *.
      destruct (IH l1 s1) as [Hn [k [Hk Hle]]].
      destruct (run l1 ops s1) as [[rs l2] s2]; simpl in *.
      split; [congruence|].
      exists ((if mustLoad l s then [(pickContext ctxs, args l)] else []) ++ k).
      split; [rewrite Hk, HC, app_assoc; reflexivity|].
      rewrite List.length_app. destruct (mustLoad l s); simpl; lia.
    + apply IH.
    + unfold bind, elsewhere.
      apply (IH l (mkState (f (world s)) (calls s))).
Qed.


(** X8.  The first [Value] call on a cell fresh from [newWithLoader]
    invokes the loader exactly once, with the resolved context and the
    slice the cell was built with, on the world as the caller left it (the
    clock is not read before the loader runs, and the loader finds in the
    slice the elements it has at that moment); it returns what the loader
    returned, and leaves the cell holding that value, loaded exactly when
    the error is nil, stamped with the reading taken after the loader. *)
Theorem fresh_first_call (ld : LazyFunc) (wTTL : bool) (d : time_Duration)
    (a : Slice) (ctxs : list Ctx) (s : State) :
  let out := ld (pickContext ctxs) a (world s) in
  let tick := read_clock (snd out) in
  Value (newWithLoader ld wTTL d a) ctxs s =
    ((fst out,
      {| value := fst (fst out); args := a; loader := ld;
         loaded := isNil (snd (fst out));
         withTTL := wTTL; ttl := d; lastLoad := Some (fst tick) |}),
     mkState (snd tick) (calls s ++ [(pickContext ctxs, a)])).
Proof.
  cbv zeta. set (l := newWithLoader ld wTTL d a).
  rewrite (Value_load l ctxs s (mustLoad_unloaded l s eq_refl)).
  cbv zeta. rewrite (needsRefresh_noStamp l s eq_refl). reflexivity.
Qed.

(** ** Properties of the interleaving semantics *)

Lemma nth_error_update_eq {A} (l : list A) : forall (i : nat) (x y : A),
  nth_error l i = Some y -> nth_error (update i x l) i = Some x.
Proof.
  induction l as [|h t IH]; intros [|i] x y H; simpl in *;
    try discriminate; eauto.
Qed.

Lemma nth_error_update_neq {A} (l : list A) : forall (i j : nat) (x : A),
  i <> j -> nth_error (update i x l) j = nth_error l j.
Proof.
  induction l as [|h t IH]; intros [|i] [|j] x H; simpl; auto.
  congruence.
Qed.

Lemma nth_error_update {A} (l : list A) (i j : nat) (x y : A) :
  nth_error (update i x l) j = Some y ->
  (j = i /\ y = x) \/ (j <> i /\ nth_error l j = Some y).
Proof.
  intros H. destruct (Nat.eq_dec i j) as [->|N].
  - left. split; [reflexivity|].
    destruct (nth_error l j) as [z|] eqn:E.
    + rewrite (nth_error_update_eq l j x z E) in H. congruence.
    + exfalso. revert j H E. clear. induction l as [|h t IH]; intros [|j] H E;
        simpl in *; try discriminate. eauto.
  - right. rewrite nth_error_update_neq in H by exact N. auto.
Qed.

Lemma length_update {A} (l : list A) : forall (i : nat) (x : A),
  List.length (update i x l) = List.length l.
Proof. induction l as [|h t IH]; intros [|i] x; simpl; auto. Qed.

Lemma Forall_nth_error {A} (P : A -> Prop) (l : list A) :
  (forall i x, nth_error l i = Some x -> P x) <-> Forall P l.
Proof.
  split.
  - induction l as [|h t IH]; intros H; constructor.
    + apply (H O). reflexivity.
    + apply IH. intros i x Hi. apply (H (S i)). exact Hi.
  - intros H i x Hi. rewrite Forall_forall in H.
    apply H. eapply nth_error_In. exact Hi.
Qed.

Lemma Forall_update {A} (P : A -> Prop) (l : list A) (i : nat) (x : A) :
  Forall P l -> P x -> Forall P (update i x l).
Proof.
  intros H Hx. apply Forall_nth_error. intros j y Hj.
  destruct (nth_error_update l i j x y Hj) as [[_ ->]|[_ Hy]]; [exact Hx|].
  rewrite <- Forall_nth_error in H. eapply H. exact Hy.
Qed.


Lemma at_most_one {A} (p : A -> bool) (l : list A) :
  (forall i j x y, nth_error l i = Some x -> nth_error l j = Some y ->
                   p x = true -> p y = true -> i = j) ->
  (List.length (filter p l) <= 1)%nat.
Proof.
  induction l as [|h t IH]; intros H; simpl; [lia|].
  destruct (p h) eqn:E.
  - assert (N : filter p t = []).
    { destruct (filter p t) as [|y r] eqn:F; [reflexivity|].
      assert (Hy : In y (filter p t)) by (rewrite F; left; reflexivity).
      apply filter_In in Hy. destruct Hy as [Hin Hp].
      apply In_nth_error in Hin. destruct Hin as [j Hj].
      specialize (H O (S j) h y eq_refl Hj E Hp). discriminate. }
    rewrite N. simpl. lia.
  - apply IH. intros i j x y Hi Hj Hx Hy.
    specialize (H (S i) (S j) x y Hi Hj Hx Hy). lia.
Qed.


(** How one step of goroutine [i] moves it with respect to the mutex: it
    takes the free mutex, or it holds the mutex and keeps it, or it holds
    the mutex and releases it. *)
Lemma stepThread_mutex (i : nat) (c c' : Config) :
  stepThread i c = Some c' ->
  exists p p',
    nth_error (pcs c) i = Some p /\ pcs c' = update i p' (pcs c) /\
    ((inCritical p = false /\ inCritical p' = true /\
      mu c = false /\ mu c' = true) \/
     (inCritical p = true /\ inCritical p' = true /\ mu c' = mu c) \/
     (inCritical p = true /\ inCritical p' = false /\ mu c' = false)).
Proof.
  unfold stepThread. intros H.
  destruct (nth_error (pcs c) i) as [p|] eqn:E; [|discriminate].
  exists p. destruct p as [k|[ctxs|]|ctx|r|r]; try discriminate.
  - destruct (mu c) eqn:M; [discriminate|].
    inversion H; subst; simpl. eexists. repeat split. left. auto.
  - destruct (needsRefresh (cell c) (env c)) as [b s1].
    destruct (negb (loaded (cell c)) || b);
      inversion H; subst; simpl; eexists; repeat split; right; left; auto.
  - inversion H; subst; simpl. eexists. repeat split. right. left. auto.
  - destruct (loader (cell c) ctx (args (cell c)) (world (env c))) as [r w1].
    destruct (time_Now {| world := w1; calls := calls (env c) |}) as [t s2].
    inversion H; subst; simpl. eexists. repeat split. right. left. auto.
  - inversion H; subst; simpl. eexists. repeat split. right. right. auto.
Qed.

Lemma exclusive_move (m : Move) (c c' : Config) :
  exclusive c -> move m c = Some c' -> exclusive c'.
Proof.
  intros (U & F & L) H. destruct m as [i|f]; simpl in H.
  2:{ inversion H; subst. repeat split; assumption. }
  destruct (stepThread_mutex i c c' H) as (p & p' & Hp & Hpcs & Hk).
  assert (Hi : nth_error (pcs c') i = Some p').
  { rewrite Hpcs. eapply nth_error_update_eq. exact Hp. }
  assert (others : mu c = true -> inCritical p = true ->
            forall j q, nth_error (pcs c') j = Some q ->
                        inCritical q = true -> j = i).
  { intros _ Hc j q Hj Hq. rewrite Hpcs in Hj.
    destruct (nth_error_update _ _ _ _ _ Hj) as [[-> _]|[N Hj']]; [reflexivity|].
    exact (U j i q p Hj' Hp Hq Hc). }
  assert (held : inCritical p = true -> mu c = true).
  { intros Hc. destruct (mu c) eqn:M; [reflexivity|].
    rewrite (F eq_refl i p Hp) in Hc. discriminate. }
  destruct Hk as [(Hc & Hc' & M & M')|[(Hc & Hc' & M')|(Hc & Hc' & M')]].
  - (* Lock *)
    assert (only : forall j q, nth_error (pcs c') j = Some q ->
                               inCritical q = true -> j = i).
    { intros j q Hj Hq. rewrite Hpcs in Hj.
      destruct (nth_error_update _ _ _ _ _ Hj) as [[-> _]|[N Hj']];
        [reflexivity|].
      rewrite (F M j q Hj') in Hq. discriminate. }
    repeat split.
    + intros j1 j2 q1 q2 H1 H2 C1 C2.
      rewrite (only j1 q1 H1 C1), (only j2 q2 H2 C2). reflexivity.
    + congruence.
    + intros _. eauto.
  - (* inside the critical section *)
    pose proof (held Hc) as M.
    repeat split.
    + intros j1 j2 q1 q2 H1 H2 C1 C2.
      rewrite (others M Hc j1 q1 H1 C1), (others M Hc j2 q2 H2 C2).
      reflexivity.
    + congruence.
    + intros _. eauto.
  - (* Unlock *)
    pose proof (held Hc) as M.
    assert (none : forall j q, nth_error (pcs c') j = Some q ->
                               inCritical q = false).
    { intros j q Hj. destruct (inCritical q) eqn:Hq; [|reflexivity].
      pose proof (others M Hc j q Hj Hq) as ->. congruence. }
    repeat split.
    + intros j1 j2 q1 q2 H1 H2 C1 C2.
      rewrite (none j1 q1 H1) in C1. discriminate.
    + intros _. exact none.
    + congruence.
Qed.

Lemma exclusive_spawn (l : withLoader) (s : State) (ks : list Call) :
  exclusive (spawn l s ks).
Proof.
  assert (N : forall i p, nth_error (map AtLock ks) i = Some p ->
                          inCritical p = false).
  { intros i p H. apply nth_error_In, in_map_iff in H.
    destruct H as [k [<- _]]. reflexivity. }
  repeat split; simpl.
  - intros i j p q Hi _ Hp _. rewrite (N i p Hi) in Hp. discriminate.
  - intros _. exact N.
  - discriminate.
Qed.

Lemma exec_invariant (I : Config -> Prop) :
  (forall m c c', I c -> move m c = Some c' -> I c') ->
  forall ms c c', I c -> exec ms c = Some c' -> I c'.
Proof.
  intros step. induction ms as [|m ms IH]; intros c c' Hc H; simpl in H.
  - inversion H; subst. exact Hc.
  - destruct (move m c) as [c1|] eqn:E; [|discriminate].
    eapply IH; [|exact H]. eapply step; eauto.
Qed.






(** The number of goroutines does not change. *)
Lemma move_threads (m : Move) (c c' : Config) :
  move m c = Some c' -> List.length (pcs c') = List.length (pcs c).
Proof.
  destruct m as [i|f]; simpl; intros H.
  - destruct (stepThread_mutex i c c' H) as (p & p' & _ & -> & _).
    apply length_update.
  - inversion H; subst. reflexivity.
Qed.

(** No deadlock: unless every goroutine has returned, one of them can take
    a step. *)
Lemma exclusive_progress (c : Config) :
  exclusive c ->
  forallb isDone (pcs c) = true \/ exists i c', stepThread i c = Some c'.
Proof.
  intros (U & F & L).
  destruct (mu c) eqn:M.
  - right. destruct (L eq_refl) as (i & p & Hp & Hc). exists i.
    unfold stepThread. rewrite Hp.
    destruct p as [k|[ctxs|]|ctx|r|r]; try discriminate; eauto.
    + destruct (needsRefresh (cell c) (env c)) as [b s1].
      destruct (negb (loaded (cell c)) || b); eauto.
    + destruct (loader (cell c) ctx (args (cell c)) (world (env c)))
        as [r w1].
      destruct (time_Now {| world := w1; calls := calls (env c) |}); eauto.
  - destruct (forallb isDone (pcs c)) eqn:D; [left; reflexivity|right].
    assert (X : exists i p, nth_error (pcs c) i = Some p /\ isDone p = false).
    { clear -D. induction (pcs c) as [|h t IH]; simpl in D; [discriminate|].
      destruct (isDone h) eqn:Dh.
      - destruct (IH D) as (i & p & Hi & Hp). exists (S i), p. auto.
      - exists O, h. auto. }
    destruct X as (i & p & Hp & Hd). exists i.
    pose proof (F eq_refl i p Hp) as Hc.
    unfold stepThread. rewrite Hp, M.
    destruct p; try discriminate. eauto.
Qed.

(** A goroutine that runs alone does what the sequential semantics says. *)
Lemma solo_Value (l : withLoader) (ctxs : list Ctx) (s : State) :
  let res := Value l ctxs s in
  exec (repeat (Go 0) (if mustLoad l s then 4 else 3))
       (spawn l s [CallValue ctxs]) =
  Some (mkConfig (snd (fst res)) false (snd res) [Done (Some (fst (fst res)))]).
Proof.
  cbv zeta. destruct (mustLoad l s) eqn:E.
  - rewrite (Value_load l ctxs s E). unfold mustLoad in E.
    pose proof (needsRefresh_calls l s) as HC.
    simpl. unfold stepThread. simpl.
    destruct (needsRefresh l s) as [b s1]. simpl in *. rewrite E. simpl.
    destruct (loader l (pickContext ctxs) (args l) (world s1)) as [r w1].
    unfold time_Now. simpl. destruct (read_clock w1) as [t w2]. simpl.
    rewrite HC. reflexivity.
  - rewrite (Value_hit l ctxs s E). unfold mustLoad in E.
    simpl. unfold stepThread. simpl.
    destruct (needsRefresh l s) as [b s1]. simpl in *. rewrite E. simpl.
    reflexivity.
Qed.

Lemma solo_Clear (l : withLoader) (s : State) :
  exec [Go 0; Go 0; Go 0] (spawn l s [CallClear]) =
  Some (mkConfig (Clear l) false s [Done None]).
Proof. reflexivity. Qed.

(** ** The claim about several goroutines *)


(** ** Further properties of several goroutines *)

Lemma total_update {A} (f : A -> nat) (l : list A) :
  forall (i : nat) (x y : A),
  nth_error l i = Some y ->
  (total f (update i x l) + f y = total f l + f x)%nat.
Proof.
  induction l as [|h t IH]; intros [|i] x y H; simpl in *; try discriminate.
  - inversion H; subst. lia.
  - specialize (IH i x y H). lia.
Qed.

Lemma filter_length_total {A} (p : A -> bool) (l : list A) :
  List.length (filter p l) = total (fun x => if p x then 1 else 0)%nat l.
Proof.
  induction l as [|h t IH]; simpl; [reflexivity|].
  destruct (p h); simpl; rewrite IH; reflexivity.
Qed.

Lemma forallb_filter_length {A} (p : A -> bool) (l : list A) :
  forallb p l = true -> List.length (filter p l) = List.length l.
Proof.
  induction l as [|h t IH]; simpl; [reflexivity|].
  intros H. apply andb_true_iff in H. destruct H as [H1 H2].
  rewrite H1. simpl. rewrite IH by exact H2. reflexivity.
Qed.

Lemma exclusive_reachable (l : withLoader) (s0 : State) (ks : list Call)
    (ms : list Move) (c : Config) :
  exec ms (spawn l s0 ks) = Some c -> exclusive c.
Proof.
  intros H.
  eapply (exec_invariant exclusive); [|apply exclusive_spawn|exact H].
  intros m c1 c2. apply exclusive_move.
Qed.

(** X9.  The mutex is locked exactly when one goroutine is between [Lock]
    and [Unlock], and free exactly when none is; so once every goroutine
    has returned the mutex is free: no call leaves the cell locked. *)
Theorem mutex_follows_holder (l : withLoader) (s0 : State) (ks : list Call)
    (ms : list Move) (c : Config) :
  exec ms (spawn l s0 ks) = Some c ->
  List.length (filter inCritical (pcs c)) = (if mu c then 1 else 0)%nat /\
  (forallb isDone (pcs c) = true -> mu c = false).
Proof.
  intros H. pose proof (exclusive_reachable l s0 ks ms c H) as HX.
  pose proof (at_most_one inCritical (pcs c) (proj1 HX)) as Hle.
  destruct HX as (U & F & L).
  assert (Hn : List.length (filter inCritical (pcs c)) =
               (if mu c then 1 else 0)%nat).
  { destruct (mu c) eqn:M.
    - destruct (L eq_refl) as (i & p & Hp & Hc).
      assert (Hin : In p (filter inCritical (pcs c))).
      { apply filter_In. split; [eapply nth_error_In; exact Hp|exact Hc]. }
      destruct (filter inCritical (pcs c)); [contradiction|simpl in *; lia].
    - destruct (filter inCritical (pcs c)) as [|q r] eqn:Fq; [reflexivity|].
      assert (Hin : In q (filter inCritical (pcs c)))
        by (rewrite Fq; left; reflexivity).
      apply filter_In in Hin. destruct Hin as [Hin Hq].
      apply In_nth_error in Hin. destruct Hin as [j Hj].
      rewrite (F eq_refl j q Hj) in Hq. discriminate. }
  split; [exact Hn|].
  intros HD. destruct (mu c) eqn:M; [|reflexivity].
  destruct (L eq_refl) as (i & p & Hp & Hc).
  rewrite forallb_forall in HD.
  specialize (HD p (nth_error_In _ _ Hp)).
  destruct p; discriminate.
Qed.

(** What one step of a goroutine does to the log: it leaves it, or it adds
    one call while the goroutine passes its test and enters the loader. *)
Lemma stepThread_calls (i : nat) (c c' : Config) :
  stepThread i c = Some c' ->
  exists p p',
    nth_error (pcs c) i = Some p /\ pcs c' = update i p' (pcs c) /\
    ((calls (env c') = calls (env c) /\
      (tested p = true -> tested p' = true)) \/
     (exists e, calls (env c') = calls (env c) ++ [e] /\
                tested p = false /\ tested p' = true)).
Proof.
  unfold stepThread. intros H.
  destruct (nth_error (pcs c) i) as [p|] eqn:E; [|discriminate].
  exists p. destruct p as [k|[ctxs|]|ctx|r|r]; try discriminate.
  - destruct (mu c); [discriminate|].
    inversion H; subst; simpl. eexists. repeat split. left. auto.
  - pose proof (needsRefresh_calls (cell c) (env c)) as HC.
    destruct (needsRefresh (cell c) (env c)) as [b s1]. simpl in HC.
    destruct (negb (loaded (cell c)) || b);
      inversion H; subst; simpl; eexists; repeat split.
    + right. rewrite HC. eauto.
    + left. auto.
  - inversion H; subst; simpl. eexists. repeat split. left. auto.
  - destruct (loader (cell c) ctx (args (cell c)) (world (env c))) as [r w1].
    unfold time_Now in H. simpl in H. destruct (read_clock w1) as [t w2].
    inversion H; subst; simpl. eexists. repeat split. left. auto.
  - inversion H; subst; simpl. eexists. repeat split. left.
    destruct r; auto.
Qed.

(** X10.  However the goroutines are scheduled, the loader calls made so
    far number at most the [Value] callers that are past their test: no
    call invokes the loader twice, and [Clear] never invokes it; so [K]
    callers cause at most [K] loader calls. *)
Theorem invocations_at_most_callers (l : withLoader) (s0 : State)
    (ks : list Call) (ms : list Move) (c : Config) :
  exec ms (spawn l s0 ks) = Some c ->
  exists k,
    loadsBetween s0 (env c) k /\
    (List.length k <= List.length (filter tested (pcs c)))%nat /\
    (List.length (filter tested (pcs c)) <= List.length ks)%nat.
Proof.
  intros H. unfold loadsBetween.
  assert (HI : exists k, calls (env c) = calls s0 ++ k /\
                 (List.length k <= List.length (filter tested (pcs c)))%nat).
  { eapply (exec_invariant (fun c => exists k, calls (env c) = calls s0 ++ k /\
                 (List.length k <= List.length (filter tested (pcs c)))%nat));
      [| |exact H].
    - intros m c1 c2 [k [Hk Hle]] Hm. destruct m as [i|f]; simpl in Hm.
      + destruct (stepThread_calls i c1 c2 Hm) as (p & p' & Hp & Hu & Hc).
        rewrite filter_length_total in Hle. rewrite filter_length_total, Hu.
        pose proof (total_update (fun x => if tested x then 1 else 0)%nat
                      (pcs c1) i p' p Hp) as Ht.
        cbv beta in Ht.
        destruct Hc as [(Hc & Hi)|(e & Hc & Hf & Ht')].
        * exists k. split; [congruence|].
          destruct (tested p); [rewrite Hi in Ht by reflexivity; lia|].
          destruct (tested p'); lia.
        * exists (k ++ [e]). split; [rewrite Hc, Hk, app_assoc; reflexivity|].
          rewrite Hf, Ht' in Ht. rewrite List.length_app. simpl. lia.
      + inversion Hm; subst. exists k. auto.
    - exists []. simpl. rewrite app_nil_r. split; [reflexivity|lia]. }
  destruct HI as [k [Hk Hle]]. exists k. split; [exact Hk|].
  split; [exact Hle|].
  assert (HN : List.length (pcs c) = List.length ks).
  { eapply (exec_invariant
              (fun c => List.length (pcs c) = List.length ks));
      [| |exact H].
    - intros m c1 c2 H1 H2. rewrite (move_threads m c1 c2 H2). exact H1.
    - simpl. apply length_map. }
  rewrite <- HN. apply filter_length_le.
Qed.

(** Each step of a goroutine takes it further. *)
Lemma stepThread_rank (i : nat) (c c' : Config) :
  stepThread i c = Some c' -> (remaining c' < remaining c)%nat.
Proof.
  intros H. unfold remaining.
  assert (X : exists p p', nth_error (pcs c) i = Some p /\
                pcs c' = update i p' (pcs c) /\ (rank p < rank p' <= 4)%nat).
  { unfold stepThread in H.
    destruct (nth_error (pcs c) i) as [p|] eqn:E; [|discriminate].
    exists p. destruct p as [k|[ctxs|]|ctx|r|r]; try discriminate.
    - destruct (mu c); [discriminate|].
      inversion H; subst; simpl. eexists. repeat split; simpl; lia.
    - destruct (needsRefresh (cell c) (env c)) as [b s1].
      destruct (negb (loaded (cell c)) || b);
        inversion H; subst; simpl; eexists; repeat split; simpl; lia.
    - inversion H; subst; simpl. eexists. repeat split; simpl; lia.
    - destruct (loader (cell c) ctx (args (cell c)) (world (env c)))
        as [r w1].
      destruct (time_Now {| world := w1; calls := calls (env c) |})
        as [t s2].
      inversion H; subst; simpl. eexists. repeat split; simpl; lia.
    - inversion H; subst; simpl. eexists. repeat split; simpl; lia. }
  destruct X as (p & p' & Hp & Hu & Hr). rewrite Hu.
  pose proof (total_update (fun q => (4 - rank q)%nat) (pcs c) i p' p Hp)
    as Ht.
  cbv beta in Ht. lia.
Qed.

Lemma finish_from (n : nat) : forall c : Config,
  exclusive c -> (remaining c <= n)%nat ->
  exists ms' c',
    exec ms' c = Some c' /\ forallb isDone (pcs c') = true /\
    exclusive c' /\ (List.length ms' <= remaining c)%nat.
Proof.
  induction n as [|n IH]; intros c HX Hn.
  - destruct (exclusive_progress c HX) as [HD|(i & c1 & Hs)].
    + exists [], c. simpl. repeat split; auto; try apply HX. lia.
    + pose proof (stepThread_rank i c c1 Hs). lia.
  - destruct (exclusive_progress c HX) as [HD|(i & c1 & Hs)].
    + exists [], c. simpl. repeat split; auto; try apply HX. lia.
    + pose proof (stepThread_rank i c c1 Hs) as Hlt.
      assert (HX1 : exclusive c1) by (apply (exclusive_move (Go i) c c1 HX Hs)).
      destruct (IH c1 HX1 ltac:(lia)) as (ms1 & c' & He & HD & HX' & Hl).
      exists (Go i :: ms1), c'. simpl. rewrite Hs.
      repeat split; auto; try apply HX'. lia.
Qed.

(** X11.  No call blocks forever: from any configuration the goroutines
    can reach, there is a schedule - of at most four steps for each
    goroutine - after which every goroutine has returned and the mutex is
    free. *)
Theorem every_call_can_return (l : withLoader) (s0 : State) (ks : list Call)
    (ms : list Move) (c : Config) :
  exec ms (spawn l s0 ks) = Some c ->
  exists ms' c',
    exec ms' c = Some c' /\
    forallb isDone (pcs c') = true /\ mu c' = false /\
    (List.length ms' <= 4 * List.length ks)%nat.
Proof.
  intros H. pose proof (exclusive_reachable l s0 ks ms c H) as HX.
  destruct (finish_from (remaining c) c HX (le_n _))
    as (ms' & c' & He & HD & (_ & _ & L) & Hl).
  exists ms', c'. split; [exact He|]. split; [exact HD|]. split.
  - destruct (mu c') eqn:M; [|reflexivity].
    destruct (L eq_refl) as (i & p & Hp & Hc).
    rewrite forallb_forall in HD.
    specialize (HD p (nth_error_In _ _ Hp)). destruct p; discriminate.
  - assert (HN : List.length (pcs c) = List.length ks).
    { eapply (exec_invariant
                (fun c => List.length (pcs c) = List.length ks));
        [| |exact H].
      - intros m c1 c2 H1 H2. rewrite (move_threads m c1 c2 H2). exact H1.
      - simpl. apply length_map. }
    assert (Hb : forall q : list Pc,
              (total (fun p => (4 - rank p)%nat) q <= 4 * List.length q)%nat).
    { induction q as [|h t IHq]; cbn [total List.length]; lia. }
    specialize (Hb (pcs c)). unfold remaining in Hl. lia.
Qed.

Lemma allFail_move (log0 : list (Ctx * Slice)) (m : Move) (c c' : Config) :
  allFail log0 c -> move m c = Some c' -> allFail log0 c'.
Proof.
  intros (HF & HL & HV & HR & k & Hk & Hn) H.
  destruct m as [i|f]; simpl in H.
  2:{ inversion H; subst. unfold allFail; simpl. repeat split; eauto. }
  unfold stepThread in H.
  destruct (nth_error (pcs c) i) as [p|] eqn:E; [|discriminate].
  assert (at_i : forall P : Pc -> Prop, Forall P (pcs c) -> P p).
  { intros P HP. rewrite <- Forall_nth_error in HP. eapply HP. exact E. }
  pose proof (at_i _ HV) as Vp.
  assert (count : forall p',
            (total (fun q => if calledLoader q then 1 else 0)
               (update i p' (pcs c)) +
             (if calledLoader p then 1 else 0) =
             total (fun q => if calledLoader q then 1 else 0) (pcs c) +
             (if calledLoader p' then 1 else 0))%nat).
  { intros p'.
    exact (total_update (fun q => if calledLoader q then 1 else 0)%nat
             (pcs c) i p' p E). }
  destruct p as [q|[ctxs|]|ctx|r|r]; try discriminate.
  - (* Lock *)
    destruct (mu c); [discriminate|].
    inversion H; subst; clear H. unfold allFail; simpl.
    split; [exact HF|]. split; [exact HL|].
    split; [apply Forall_update; [exact HV|destruct q; [reflexivity|exact Vp]]|].
    split; [apply Forall_update; [exact HR|discriminate]|].
    exists k. split; [exact Hk|].
    match goal with |- context [update i ?p' (pcs c)] => specialize (count p') end.
    simpl in count. lia.
  - (* the test of [Value]: the cell is not loaded *)
    pose proof (needsRefresh_calls (cell c) (env c)) as HC.
    destruct (needsRefresh (cell c) (env c)) as [b s1]. simpl in HC.
    rewrite HL in H. simpl in H.
    inversion H; subst; clear H. unfold allFail; simpl.
    split; [exact HF|]. split; [exact HL|].
    split; [apply Forall_update; [exact HV|reflexivity]|].
    split; [apply Forall_update; [exact HR|discriminate]|].
    exists (k ++ [(pickContext ctxs, args (cell c))]).
    split; [rewrite HC, Hk, app_assoc; reflexivity|].
    match goal with |- context [update i ?p' (pcs c)] => specialize (count p') end.
    simpl in count. rewrite List.length_app. simpl. lia.
  - (* the return of the loader, with an error *)
    pose proof (HF ctx (args (cell c)) (world (env c))) as Hbad.
    destruct (loader (cell c) ctx (args (cell c)) (world (env c)))
      as [[v e] w1].
    simpl in Hbad. destruct e as [e|]; [|congruence].
    unfold time_Now in H. simpl in H. destruct (read_clock w1) as [t w2].
    inversion H; subst; clear H. unfold allFail; simpl.
    split; [exact HF|]. split; [reflexivity|].
    split; [apply Forall_update; [exact HV|reflexivity]|].
    split.
    { apply Forall_update; [exact HR|].
      intros r' Hr'. inversion Hr'. exists v, e. reflexivity. }
    exists k. split; [exact Hk|].
    match goal with |- context [update i ?p' (pcs c)] => specialize (count p') end.
    simpl in count. lia.
  - (* Unlock *)
    inversion H; subst; clear H. unfold allFail; simpl.
    split; [exact HF|]. split; [exact HL|].
    split; [apply Forall_update; [exact HV|reflexivity]|].
    split.
    { apply Forall_update; [exact HR|]. exact (at_i _ HR). }
    exists k. split; [exact Hk|].
    match goal with |- context [update i ?p' (pcs c)] => specialize (count p') end.
    simpl in count. lia.
Qed.

Lemma allFail_spawn (l : withLoader) (s : State) (ks : list Call) :
  loaded l = false -> fails (loader l) -> forallb isValueCall ks = true ->
  allFail (calls s) (spawn l s ks).
Proof.
  intros HL HF HK. unfold allFail, spawn; simpl.
  rewrite forallb_forall in HK.
  split; [exact HF|]. split; [exact HL|]. split; [|split].
  - apply Forall_forall. intros p Hp. apply in_map_iff in Hp.
    destruct Hp as [q [<- Hq]]. specialize (HK q Hq).
    destruct q; [reflexivity|discriminate].
  - apply Forall_forall. intros p Hp. apply in_map_iff in Hp.
    destruct Hp as [q [<- _]]. discriminate.
  - exists []. split; [rewrite app_nil_r; reflexivity|].
    clear. induction ks as [|h t IH]; simpl; [reflexivity|exact IH].
Qed.

(** X12.  With a loader that fails, concurrent callers do not share the
    failure: on a cell that is not loaded, when [K] goroutines have each
    made a [Value] call and returned, the loader has been invoked exactly
    [K] times, every caller has received a non-nil error, and the cell is
    still not loaded. *)
Theorem failing_loader_runs_for_every_caller (l : withLoader) (s0 : State)
    (ks : list Call) (ms : list Move) (c : Config) :
  loaded l = false -> fails (loader l) -> forallb isValueCall ks = true ->
  exec ms (spawn l s0 ks) = Some c ->
  forallb isDone (pcs c) = true ->
  (exists k, loadsBetween s0 (env c) k /\ List.length k = List.length ks) /\
  Forall (fun p => exists v e, p = Done (Some (v, Some e))) (pcs c) /\
  loaded (cell c) = false.
Proof.
  intros HL HF HK H HD.
  assert (HI : allFail (calls s0) c).
  { exact (exec_invariant (allFail (calls s0))
             (fun m c1 c2 => allFail_move (calls s0) m c1 c2)
             ms (spawn l s0 ks) c (allFail_spawn l s0 ks HL HF HK) H). }
  assert (HN : List.length (pcs c) = List.length ks).
  { eapply (exec_invariant
              (fun c => List.length (pcs c) = List.length ks));
      [| |exact H].
    - intros m c1 c2 H1 H2. rewrite (move_threads m c1 c2 H2). exact H1.
    - simpl. apply length_map. }
  destruct HI as (_ & HL' & _ & HR & k & Hk & Hn).
  rewrite forallb_forall in HD.
  split; [|split; [|exact HL']].
  - exists k. split; [exact Hk|]. rewrite Hn, <- HN.
    assert (X : forall q : list Pc,
              (forall p, In p q -> isDone p = true) ->
              total (fun p => if calledLoader p then 1 else 0)%nat q =
              List.length q).
    { induction q as [|h t IHq]; intros Hq; simpl; [reflexivity|].
      rewrite IHq by (intros p Hp; apply Hq; right; exact Hp).
      pose proof (Hq h (or_introl eq_refl)) as Hh.
      destruct h; try discriminate. reflexivity. }
    apply X. exact HD.
  - apply Forall_forall. intros p Hp.
    rewrite Forall_forall in HR. specialize (HR p Hp). specialize (HD p Hp).
    destruct p as [| | | |r]; try discriminate.
    destruct (HR r eq_refl) as (v & e & ->). eauto.
Qed.

(** ** Further properties of the constructors and of the two variants *)


(** X14.  The static variant is a cell that is always loaded: over any
    sequence of calls without [Clear], [Static v] and a loaded cell
    without TTL that holds [v] return the same results, and neither
    invokes a loader. *)
Theorem static_is_a_loaded_cell (v : T) (l : withLoader) (ops : list Op)
    (s : State) :
  loaded l = true -> withTTL l = false -> value l = v ->
  forallb (fun o => negb (isClear o)) ops = true ->
  fst (fst (run (Static v) ops s)) = fst (fst (run l ops s)) /\
  loadsBetween s (snd (run (Static v) ops s)) [] /\
  loadsBetween s (snd (run l ops s)) [].
Proof.
  intros HL HT Hv HC.
  destruct (run_static ops (Static v) s) as [H1 H2].
  destruct (run_cached ops l s HT HL HC) as [H3 H4].
  unfold loadsBetween. rewrite H1, H2, H3, H4, Hv, app_nil_r. auto.
Qed.

End Golazy.

(** ** Concrete runs *)

Import Fixture.

Local Open Scope string_scope.

Local Abbreviation Value' := (Value Background read_clock).
Local Abbreviation exec' := (exec Background read_clock).
Local Abbreviation run' := (run (H:=Lazy_withLoader Background read_clock)).
Local Abbreviation at0 := (mkState (Ctx:=Context) (Slice:=list string) (0 : World) []).

(** The run of [TestPreloaded_ReturnsPreloadedValue]: the loader is called
    and its value is returned, where the test expects the preload value and
    no loader call. *)
Example C1_test_preloaded_returns_loader_value :
  let made := Preloaded read_clock "preloaded" fromLoader [] at0 in
  let res := Value' (fst made) [] (snd made) in
  loaded (fst made) = false /\
  fst res = (("from-loader", None), snd (fst res)) /\
  calls (snd res) = [(Background, [])].
Proof. repeat split. Qed.

Lemma C2_failed_load_witness :
  let l := WithLoader EmptyString boom [] in
  mustLoad read_clock l at0 = true /\
  fst (boom Background [] 0) = (EmptyString, Some "boom") /\
  fst (fst (Value' l [] at0)) = (EmptyString, Some "boom") /\
  loaded (snd (fst (Value' l [] at0))) = false /\
  lastLoad (snd (fst (Value' l [] at0))) = Some 10 /\
  calls (snd (Value' l [] at0)) = [(Background, [])].
Proof.
  intros l.
  destruct (C2_failed_load Background read_clock l [] at0 EmptyString "boom"
              eq_refl eq_refl) as (H1 & H2 & H3 & H4 & H5 & H6).
  split; [reflexivity|]. split; [reflexivity|].
  split; [exact H2|]. split; [exact H4|]. split; [exact H5|exact H1].
Defined.

(** A loaded cell with a TTL of 100 ns stamped at 0: a call at 100 is a
    hit, a call at 101 loads. *)
Lemma C3_loader_invoked_iff_witness :
  let l := {| value := "v"; args := []; loader := fromLoader; loaded := true;
              withTTL := true; ttl := 100; lastLoad := Some 0 |} in
  let s := mkState (Ctx:=Context) (Slice:=list string) (100 : World) [] in
  let s2 := mkState (Ctx:=Context) (Slice:=list string) (101 : World) [] in
  now read_clock s - 0 = 100 /\
  loadsBetween s (snd (Value' l [] s)) [] /\
  fst (Value' l [] s) = (("v", None), l) /\
  now read_clock s2 - 0 > ttl l /\
  loadsBetween s2 (snd (Value' l [] s2)) [(Background, [])] /\
  fst (fst (Value' l [] s2)) = ("from-loader", None) /\
  world (snd (Value' l [] s2)) = 111.
Proof.
  intros l s s2.
  destruct (C3_loader_invoked_iff Background read_clock l [] s)
    as (_ & _ & _ & _ & Hhit).
  destruct (Hhit 0 eq_refl eq_refl eq_refl) as (H1 & H2).
  destruct (C3_loader_invoked_iff Background read_clock l [] s2)
    as (Hiff & _ & Hdue & _ & _).
  assert (Hgt : now read_clock s2 - 0 > ttl l) by reflexivity.
  assert (Hd : loaded l = false \/
               (withTTL l = true /\
                exists t0, lastLoad l = Some t0 /\
                           now read_clock s2 - t0 > ttl l)).
  { right. split; [reflexivity|]. exists 0. split; [reflexivity|exact Hgt]. }
  destruct (Hdue Hd) as (H3 & H4).
  split; [reflexivity|]. split; [exact H1|]. split; [exact H2|].
  split; [exact Hgt|]. split; [exact (proj2 Hiff Hd)|].
  split; [exact H3|exact H4].
Defined.

Lemma C4_no_ttl_cached_until_clear_witness :
  let l0 := WithLoader EmptyString fromLoader [] in
  let ops := [OpValue []; OpElsewhere (Z.add 1000); OpValue ["ctx"]] in
  let first := Value' l0 [] at0 in
  withTTL l0 = false /\
  snd (fst (fst first)) = None /\
  forallb (fun o => negb (isClear o)) ops = true /\
  fst (fst (run' (snd (fst first)) ops (snd first))) =
    [("from-loader", None); ("from-loader", None)] /\
  calls (snd (run' (snd (fst first)) ops (snd first))) = [(Background, [])].
Proof.
  intros l0 ops first.
  destruct (C4_no_ttl_cached_until_clear Background read_clock l0 [] at0 ops
              eq_refl eq_refl eq_refl) as (H1 & H2 & H3 & H4).
  split; [reflexivity|]. split; [reflexivity|]. split; [reflexivity|].
  split; [exact H3|exact H2].
Defined.

Local Abbreviation runShared :=
  (run (H:=Lazy_withLoader Background Shared.read_clock)).

(** Extra contexts are ignored; and on a slice that can be written but is
    not, the elements found at the next invocation are the initial ones. *)
Lemma C6_context_and_args_witness :
  let l := WithLoader EmptyString firstArg ["arg-value"] in
  let w0 : Shared.World := (0, ["arg-value"; "spare"]) in
  let s0 := mkState (Ctx:=Context) (Slice:=Shared.Slice) w0 [] in
  let l2 := WithLoader EmptyString Shared.first 1%nat in
  let ops := [OpValue []; OpElsewhere (fun w => (fst w + 5, snd w)); OpClear] in
  mustLoad read_clock l at0 = true /\
  loadsBetween at0 (snd (Value' l ["first"; "second"] at0))
    [("first", ["arg-value"])] /\
  Value' l ["first"; "second"] at0 = Value' l ["first"] at0 /\
  loaderKeeps Shared.elems (args l2) (loader l2) /\
  clockKeeps Shared.read_clock Shared.elems (args l2) /\
  opsKeep Shared.elems (args l2) ops /\
  Shared.elems (world (snd (runShared l2 ops s0))) (args l2) = ["arg-value"].
Proof.
  intros l w0 s0 l2 ops.
  assert (HL : loaderKeeps Shared.elems (args l2) (loader l2)).
  { intros ctx sl w. simpl. unfold Shared.first.
    destruct (Shared.elems w sl); reflexivity. }
  assert (HC : clockKeeps Shared.read_clock Shared.elems (args l2))
    by (intros w; reflexivity).
  assert (HO : opsKeep Shared.elems (args l2) ops).
  { simpl. split; [|exact I]. intros w. reflexivity. }
  pose proof (C6_context_and_args (Err:=string) Background Shared.read_clock
                Shared.elems EmptyString) as (_ & _ & _ & _ & H5).
  destruct (H5 l2 ops s0 HL HC HO) as (_ & _ & Hk).
  split; [reflexivity|].
  destruct (proj1 (proj2 (C6_context_and_args Background read_clock
                            Fixture.elems EmptyString))
              l "first" ["second"] at0 eq_refl) as (H1 & _ & H3).
  split; [exact H1|]. split; [exact H3|].
  split; [exact HL|]. split; [exact HC|]. split; [exact HO|].
  exact Hk.
Defined.

(** C6 as stated fails.  A loader that writes [args[0]]: the cell is built
    over the slice [["arg-value"]]; the first invocation finds "arg-value"
    there, the second, after a [Clear], finds "changed".  The same when
    the caller, who kept the slice, writes it between two invocations of
    a loader that only reads. *)
Lemma C6_counterexample :
  let w0 : Shared.World := (0, ["arg-value"]) in
  let s0 := mkState (Ctx:=Context) (Slice:=Shared.Slice) w0 [] in
  let l := WithLoader EmptyString Shared.takeAndOverwrite 1%nat in
  let out := runShared l [OpValue []; OpClear; OpValue []] s0 in
  let l2 := WithLoader EmptyString Shared.first 1%nat in
  let out2 := runShared l2 [OpValue []; OpElsewhere Shared.overwrite;
                            OpClear; OpValue []] s0 in
  Shared.elems w0 (args l) = ["arg-value"] /\
  fst (fst out) = [("arg-value", None); ("changed", None)] /\
  calls (snd out) = [(Background, 1%nat); (Background, 1%nat)] /\
  Shared.elems (world (snd out)) (args l) = ["changed"] /\
  fst (fst out2) = [("arg-value", None); ("changed", None)] /\
  calls (snd out2) = [(Background, 1%nat); (Background, 1%nat)].
Proof. repeat split. Qed.

Lemma C9_hit_changes_nothing_witness :
  let l := {| value := "v"; args := []; loader := fromLoader; loaded := true;
              withTTL := true; ttl := 100; lastLoad := Some 0 |} in
  let s := mkState (Ctx:=Context) (Slice:=list string) (100 : World) [] in
  loaded l = true /\
  (exists t0, lastLoad l = Some t0 /\ now read_clock s - t0 <= ttl l) /\
  fst (Value' l [] s) = (("v", None), l) /\
  loadsBetween s (snd (Value' l [] s)) [].
Proof.
  intros l s.
  assert (H : exists t0, lastLoad l = Some t0 /\ now read_clock s - t0 <= ttl l).
  { exists 0. split; [reflexivity|]. vm_compute. discriminate. }
  split; [reflexivity|]. split; [exact H|].
  exact (C9_hit_changes_nothing Background read_clock l [] s eq_refl
           (or_intror (or_intror H))).
Defined.

(** A cell from [PreloadedTTL] with a zero TTL, after one [Value] call:
    loaded, stamped at 10; a call at 11 loads again. *)
Lemma C10_zero_ttl_is_enabled_witness :
  let made := PreloadedTTL read_clock "preloaded" fromLoader 0 [] at0 in
  let l := snd (fst (run' (fst made) [OpValue []] (snd made))) in
  let s := mkState (Ctx:=Context) (Slice:=list string) (11 : World) [] in
  withTTL l = true /\ ttl l = 0 /\
  loaded l = true /\
  lastLoad l = Some 10 /\
  now read_clock s - 10 > 0 /\
  loadsBetween s (snd (Value' l [] s)) [(Background, [])] /\
  fst (fst (Value' l [] s)) = ("from-loader", None).
Proof.
  intros made l s.
  pose proof (C10_zero_ttl_is_enabled (T:=string) (Err:=string)
                (Slice:=list string) Background read_clock EmptyString)
    as (HA & _ & HC).
  destruct (HC "preloaded" fromLoader [] [OpValue []] at0)
    as (HT & Hz & _ & _ & _).
  destruct (HA l [] s 10 HT Hz eq_refl eq_refl) as (_ & H2 & H3).
  split; [exact HT|]. split; [exact Hz|].
  split; [reflexivity|]. split; [reflexivity|]. split; [reflexivity|].
  split; [exact H2|exact H3].
Defined.



(** ** Concrete runs of the further properties *)

(** The first call on a fresh cell whose slice the caller has written
    since construction: the loader finds the elements of the moment. *)
Example fresh_first_call_after_a_write :
  let w0 : Shared.World := (0, ["arg-value"]) in
  let s0 := mkState (Ctx:=Context) (Slice:=Shared.Slice) w0 [] in
  let l := newWithLoader EmptyString Shared.first false 0 1%nat in
  fst (fst (runShared l [OpElsewhere Shared.overwrite; OpValue []] s0)) =
    [("changed", None)].
Proof. reflexivity. Qed.

Lemma Value_error_is_loader_error_witness :
  let l := WithLoader EmptyString boom [] in
  snd (fst (fst (Value' l [] at0))) = Some "boom" /\
  loadsBetween at0 (snd (Value' l [] at0)) [(Background, [])] /\
  loaded (snd (fst (Value' l [] at0))) = false.
Proof.
  intros l.
  destruct (Value_error_is_loader_error Background read_clock l [] at0 "boom"
              eq_refl) as (H1 & _ & H3).
  split; [reflexivity|]. split; [exact H1|exact H3].
Defined.

Lemma load_then_hit_witness :
  let l := WithLoaderTTL EmptyString fromLoader 100 [] in
  let s' := mkState (Ctx:=Context) (Slice:=list string) (60 : World) [] in
  let l' := snd (fst (Value' l [] at0)) in
  mustLoad read_clock l at0 = true /\
  fst (fromLoader Background [] 0) = ("from-loader", None) /\
  now read_clock s' - 10 <= ttl l /\
  lastLoad l' = Some 10 /\
  fst (Value' l' ["later"] s') = (("from-loader", None), l') /\
  loadsBetween s' (snd (Value' l' ["later"] s')) [].
Proof.
  intros l s' l'.
  assert (Hle : now read_clock s' - 10 <= ttl l) by (vm_compute; discriminate).
  destruct (load_then_hit Background read_clock l [] at0 "from-loader"
              ["later"] s' eq_refl eq_refl (or_intror Hle))
    as (_ & _ & _ & H4 & H5 & H6).
  split; [reflexivity|]. split; [reflexivity|]. split; [exact Hle|].
  split; [exact H4|]. split; [exact H5|exact H6].
Defined.

Lemma ttl_hit_is_fresh_witness :
  let l := snd (fst (run' (newWithLoader EmptyString fromLoader true 100 [])
                       [OpValue []] at0)) in
  let s := mkState (Ctx:=Context) (Slice:=list string) (60 : World) [] in
  mustLoad read_clock l s = false /\
  exists t0, lastLoad l = Some t0 /\ now read_clock s - t0 <= 100 /\
             fst (fst (Value' l [] s)) = (value l, None).
Proof.
  intros l s. split; [reflexivity|].
  exact (proj1 (ttl_hit_is_fresh Background read_clock EmptyString)
           fromLoader 100 [] [OpValue []] at0 [] s eq_refl).
Defined.

Lemma unloaded_ignores_stale_fields_witness :
  let l1 := {| value := "stale"; args := ["a"]; loader := firstArg;
               loaded := false; withTTL := true; ttl := 100;
               lastLoad := Some 5 |} in
  let l2 := newWithLoader EmptyString firstArg true 100 ["a"] in
  loaded l1 = false /\ loaded l2 = false /\ sameSetup l1 l2 /\
  pureClock read_clock /\
  Value' l1 [] at0 = Value' l2 [] at0.
Proof.
  intros l1 l2.
  assert (HS : sameSetup l1 l2) by (repeat split).
  assert (HP : pureClock read_clock) by (intros w; reflexivity).
  split; [reflexivity|]. split; [reflexivity|]. split; [exact HS|].
  split; [exact HP|].
  exact (unloaded_ignores_stale_fields Background read_clock l1 l2 [] at0
           eq_refl eq_refl HS (or_intror HP)).
Defined.


(** Two callers; the first is in the loader, the second waits. *)
Lemma mutex_follows_holder_witness :
  let l := WithLoader EmptyString fromLoader [] in
  let ks := [CallValue []; CallValue []] in
  exists c,
    exec' [Go 0; Go 0]%nat (spawn l at0 ks) = Some c /\
    mu c = true /\
    List.length (filter inCritical (pcs c)) = 1%nat.
Proof.
  intros l ks. eexists. split; [vm_compute; reflexivity|].
  match goal with |- context [pcs ?c] =>
    assert (Hrun : exec' [Go 0; Go 0]%nat (spawn l at0 ks) = Some c)
      by (vm_compute; reflexivity)
  end.
  split; [reflexivity|].
  exact (proj1 (mutex_follows_holder Background read_clock l at0 ks _ _ Hrun)).
Defined.

(** A [Value] caller and a [Clear] caller have returned, a second [Value]
    caller is in the loader: two loader calls, two callers past the test. *)
Lemma invocations_at_most_callers_witness :
  let l := WithLoader EmptyString fromLoader [] in
  let ks := [CallValue []; CallClear; CallValue ["c"]] in
  let ms := [Go 0; Go 0; Go 0; Go 0; Go 1; Go 1; Go 1; Go 2; Go 2]%nat in
  exists c,
    exec' ms (spawn l at0 ks) = Some c /\
    List.length (filter tested (pcs c)) = 2%nat /\
    exists k, loadsBetween at0 (env c) k /\
              (List.length k <= List.length (filter tested (pcs c)))%nat.
Proof.
  intros l ks ms. eexists. split; [vm_compute; reflexivity|].
  match goal with |- context [pcs ?c] =>
    assert (Hrun : exec' ms (spawn l at0 ks) = Some c)
      by (vm_compute; reflexivity)
  end.
  split; [reflexivity|].
  destruct (invocations_at_most_callers Background read_clock l at0 ks ms _
              Hrun) as (k & H1 & H2 & _).
  exists k. split; [exact H1|exact H2].
Defined.

Lemma every_call_can_return_witness :
  let l := WithLoader EmptyString fromLoader [] in
  let ks := [CallValue []; CallClear; CallValue ["c"]] in
  exists c,
    exec' [Go 2; Go 2]%nat (spawn l at0 ks) = Some c /\
    exists ms' c',
      exec' ms' c = Some c' /\ forallb isDone (pcs c') = true /\
      mu c' = false /\ (List.length ms' <= 12)%nat.
Proof.
  intros l ks. eexists. split; [vm_compute; reflexivity|].
  match goal with |- context [exec' _ ?c = _] =>
    assert (Hrun : exec' [Go 2; Go 2]%nat (spawn l at0 ks) = Some c)
      by (vm_compute; reflexivity)
  end.
  exact (every_call_can_return Background read_clock l at0 ks _ _ Hrun).
Defined.

Lemma failing_loader_runs_for_every_caller_witness :
  let l := WithLoader EmptyString boom [] in
  let ks := [CallValue []; CallValue []] in
  let ms := [Go 1; Go 1; Go 1; Go 1; Go 0; Go 0; Go 0; Go 0]%nat in
  exists c,
    exec' ms (spawn l at0 ks) = Some c /\
    loaded l = false /\ fails (loader l) /\
    forallb isValueCall ks = true /\ forallb isDone (pcs c) = true /\
    (exists k, loadsBetween at0 (env c) k /\ List.length k = 2%nat) /\
    loaded (cell c) = false.
Proof.
  intros l ks ms.
  assert (HF : fails (loader l)) by (intros ctx a w; discriminate).
  eexists. split; [vm_compute; reflexivity|].
  match goal with |- context [pcs ?c] =>
    assert (Hrun : exec' ms (spawn l at0 ks) = Some c)
      by (vm_compute; reflexivity)
  end.
  assert (HD : forall c, exec' ms (spawn l at0 ks) = Some c ->
                         forallb isDone (pcs c) = true).
  { intros c Hc. vm_compute in Hc. inversion Hc. reflexivity. }
  destruct (failing_loader_runs_for_every_caller Background read_clock l at0
              ks ms _ eq_refl HF eq_refl Hrun (HD _ Hrun)) as (H1 & _ & H3).
  split; [reflexivity|]. split; [exact HF|]. split; [reflexivity|].
  split; [exact (HD _ Hrun)|]. split; [exact H1|exact H3].
Defined.


Lemma static_is_a_loaded_cell_witness :
  let l := snd (fst (Value' (WithLoader EmptyString fromLoader []) [] at0)) in
  let ops := [OpValue []; OpElsewhere (Z.add 5); OpValue ["c"]] in
  loaded l = true /\ withTTL l = false /\ value l = "from-loader" /\
  forallb (fun o => negb (isClear o)) ops = true /\
  fst (fst (run (Static "from-loader") ops at0)) = fst (fst (run' l ops at0)).
Proof.
  intros l ops.
  split; [reflexivity|]. split; [reflexivity|]. split; [reflexivity|].
  split; [reflexivity|].
  exact (proj1 (static_is_a_loaded_cell Background read_clock "from-loader" l
                  ops at0 eq_refl eq_refl eq_refl eq_refl)).
Defined.
